(** * The chat widget of static/app.js, embedded in Rocq

    The script is a small browser controller: two module-level variables
    ([currentUser], [typingEl]), four DOM helpers ([addMessage],
    [renderText], [showTyping], [hideTyping]) and two asynchronous click
    handlers ([startSession], [send]).

    - JavaScript strings are sequences of UTF-16 code units: [list N].
    - JavaScript values (what [JSON.parse] returns, what flows into
      [renderText]) are the inductive type [value].
    - The DOM is a tree of [node]s; every [document.createElement] draws a
      fresh identity, so that [typingEl.parentNode === chat] and
      [chat.removeChild(typingEl)] can be modelled by identity.
    - The module-level variables, the three DOM elements the script reads
      or writes, the in-flight requests and the observable effects
      ([alert], [fetch], [console.error]) form the record [page].
    - Code that may throw runs in the monad [M]; [try]/[catch] is
      [try_catch].
    - An [async] function is cut at its [await]s: the part up to the first
      [await] runs when the handler is called, the continuations run when
      the event loop delivers the settlement of the awaited promise. *)

From Stdlib Require Import String Ascii.
From stdpp Require Import gmap list.

Local Open Scope N_scope.

(** ** Strings *)

Module JsString.

(** A JavaScript string: its UTF-16 code units. *)
Definition t : Type := list N.

(** A Rocq literal (ASCII only) as a JavaScript string. *)
Definition js (s : string) : t :=
  List.map N_of_ascii (list_ascii_of_string s).

Definition eqb (a b : t) : bool := bool_decide (a = b).

(** [!s] on a string: only the empty string is falsy. *)
Definition is_empty (s : t) : bool :=
  match s with [] => true | _ :: _ => false end.

(** ECMAScript LineTerminator: LF, CR, LS, PS. *)
Definition line_terminator (c : N) : bool :=
  (c =? 10) || (c =? 13) || (c =? 8232) || (c =? 8233).

(** ECMAScript WhiteSpace: TAB, VT, FF, SP, NBSP, ZWNBSP and the
    Unicode space separators. *)
Definition white_space (c : N) : bool :=
  (c =? 9) || (c =? 11) || (c =? 12) || (c =? 32) || (c =? 160)
  || (c =? 5760) || ((8192 <=? c) && (c <=? 8202))
  || (c =? 8239) || (c =? 8287) || (c =? 12288) || (c =? 65279).

Definition trimmable (c : N) : bool := white_space c || line_terminator c.

Fixpoint trim_start (s : t) : t :=
  match s with
  | c :: s' => if trimmable c then trim_start s' else s
  | [] => []
  end.

(** [String.prototype.trim]. *)
Definition trim (s : t) : t := rev (trim_start (rev (trim_start s))).

(** [strip_prefix d s] is [Some r] when [s = d ++ r]. *)
Fixpoint strip_prefix (d s : t) : option t :=
  match d with
  | [] => Some s
  | x :: d' =>
      match s with
      | y :: s' => if x =? y then strip_prefix d' s' else None
      | [] => None
      end
  end.

Definition starts_with (pat s : t) : bool :=
  match strip_prefix pat s with Some _ => true | None => false end.

(** Number of positions of [s] at which an occurrence of [pat] starts. *)
Fixpoint count_sub (pat s : t) : nat :=
  match s with
  | [] => 0%nat
  | _ :: s' => ((if starts_with pat s then 1 else 0) + count_sub pat s')%nat
  end.

Definition ends_with (pat s : t) : bool := starts_with (rev pat) (rev s).

End JsString.

Abbreviation jsstring := JsString.t.
Abbreviation js := JsString.js.

(** ** Regular-expression replacement

    [renderText] uses four global ([/g]) regular expressions of two shapes:
    a delimiter, a lazily matched non-empty group of [.] and the delimiter
    again ([/\*\*(.+?)\*\*/g], [/\*(.+?)\*/g]); and a literal ([/\n\n/g],
    [/\n-/g]). *)

Module RegExp.
Import JsString.

(** The backtracking matcher on [(.+?)d]: [.] takes one code unit that
    is not a line terminator; after each one the continuation [d] is
    tried first (lazy), and only when it fails is one more [.] taken.
    The result is the captured group and what follows the match. *)
Fixpoint lazy_dots (d s : t) : option (t * t) :=
  match s with
  | [] => None
  | c :: s' =>
      if line_terminator c then None
      else match strip_prefix d s' with
           | Some r => Some ([c], r)
           | None =>
               match lazy_dots d s' with
               | Some (g, r) => Some (c :: g, r)
               | None => None
               end
           end
  end.

(** A match of [d(.+?)d] anchored at the head of [s]. *)
Definition match_here (d s : t) : option (t * t) :=
  match strip_prefix d s with
  | Some s1 => lazy_dots d s1
  | None => None
  end.

(** [s.replace(/d(.+?)d/g, opn + '$1' + cls)]: scan left to right; at a
    position with a match emit the replacement and resume after the
    match, otherwise copy one code unit. The fuel bounds the number of
    scanning steps; [length s] suffices ([replace_emph_eq]). *)
Fixpoint replace_emph_fuel (n : nat) (d opn cls s : t) : t :=
  match n with
  | O => s
  | S n' =>
      match match_here d s with
      | Some (g, r) => opn ++ g ++ cls ++ replace_emph_fuel n' d opn cls r
      | None =>
          match s with
          | [] => []
          | c :: s' => c :: replace_emph_fuel n' d opn cls s'
          end
      end
  end.

Definition replace_emph (d opn cls s : t) : t :=
  replace_emph_fuel (length s) d opn cls s.

(** [s.replace(/pat/g, rep)] for a literal, non-empty [pat] and a
    replacement without [$]. *)
Fixpoint replace_lit_fuel (n : nat) (pat rep s : t) : t :=
  match n with
  | O => s
  | S n' =>
      match strip_prefix pat s with
      | Some r => rep ++ replace_lit_fuel n' pat rep r
      | None =>
          match s with
          | [] => []
          | c :: s' => c :: replace_lit_fuel n' pat rep s'
          end
      end
  end.

Definition replace_lit (pat rep s : t) : t :=
  replace_lit_fuel (length s) pat rep s.

End RegExp.

(** ** Values *)

(** JavaScript values as far as the script meets them: [undefined], and
    what [JSON.parse] builds. A number is observed only through its
    truthiness; it is carried as a fraction [num/den] of integers. *)
#[warnings="-register-all"] Inductive value : Type :=
| VUndefined
| VNull
| VBool (b : bool)
| VNumber (num : Z) (den : positive)
| VString (s : jsstring)
| VArray (items : list value)
| VObject (fields : list (jsstring * value)).

(** ToBoolean. *)
Definition truthy (v : value) : bool :=
  match v with
  | VUndefined | VNull => false
  | VBool b => b
  | VNumber n _ => negb (Z.eqb n 0)
  | VString s => negb (JsString.is_empty s)
  | VArray _ | VObject _ => true
  end.

(** Own property lookup in a parsed object: of duplicate keys the last
    one wins. *)
Fixpoint lookup_field (k : jsstring) (fields : list (jsstring * value))
  : option value :=
  match fields with
  | [] => None
  | (k', v) :: rest =>
      match lookup_field k rest with
      | Some w => Some w
      | None => if JsString.eqb k k' then Some v else None
      end
  end.

(** [v.k] for a property name [k] that no prototype defines ([message],
    [response]): the own property of an object, [undefined] on anything
    else. On [null] and [undefined] the access would throw; the script
    guards every access with [data && ...]. *)
Definition get_prop (v : value) (k : jsstring) : value :=
  match v with
  | VObject fields => default VUndefined (lookup_field k fields)
  | _ => VUndefined
  end.

(** Errors that reach a [catch] block of the script. *)
Inductive error : Type :=
| NetworkError      (* fetch rejected *)
| SyntaxError       (* res.json() rejected: the body is not JSON *)
| TypeError         (* calling .replace on a value that has none *)
| NotFoundError.    (* removeChild of a node that is not a child *)

(** ** renderText *)

Definition STAR : N := 42.
Definition LF : N := 10.
Definition BULLET : N := 8226.

Definition bold (s : jsstring) : jsstring :=
  RegExp.replace_emph [STAR; STAR] (js "<strong>") (js "</strong>") s.

Definition italic (s : jsstring) : jsstring :=
  RegExp.replace_emph [STAR] (js "<em>") (js "</em>") s.

Definition paragraphs (s : jsstring) : jsstring :=
  RegExp.replace_lit [LF; LF] (js "</p><p>") s.

Definition bullets (s : jsstring) : jsstring :=
  RegExp.replace_lit (LF :: js "-") (js "<br>" ++ [BULLET]) s.

(** The chain of [.replace] calls on a string. *)
Definition format (s : jsstring) : jsstring :=
  bullets (paragraphs (italic (bold s))).

(** [renderText(text)]: [(text||'')] turns every falsy value into the
    empty string; a truthy value that is not a string has no [replace]
    method, and the call throws. *)
Definition renderText (text : value) : error + jsstring :=
  match (if truthy text then text else VString []) with
  | VString s => inr (js "<p>" ++ format s ++ js "</p>")
  | _ => inl TypeError
  end.

(** [renderText] on a string. *)
Definition renderText_str (t : jsstring) : jsstring :=
  js "<p>" ++ format t ++ js "</p>".

(** ** The DOM *)

(** An element: the identity [document.createElement] gave it, its class,
    the markup assigned to [innerHTML] and the children appended to it. *)
#[warnings="-register-all"] Inductive node : Type :=
| Element (uid : nat) (className innerHTML : jsstring) (children : list node).

Definition node_uid (n : node) : nat :=
  match n with Element u _ _ _ => u end.
Definition node_class (n : node) : jsstring :=
  match n with Element _ c _ _ => c end.
Definition node_html (n : node) : jsstring :=
  match n with Element _ _ h _ => h end.
Definition node_children (n : node) : list node :=
  match n with Element _ _ _ k => k end.

Definition set_className (n : node) (c : jsstring) : node :=
  match n with Element u _ h k => Element u c h k end.
Definition set_innerHTML (n : node) (h : jsstring) : node :=
  match n with Element u c _ k => Element u c h k end.
Definition appendChild (parent child : node) : node :=
  match parent with Element u c h k => Element u c h (k ++ [child]) end.

(** The row [showTyping] builds: a bubble whose only child has the class
    [typing]. Message rows have a bubble without children. *)
Definition is_typing (n : node) : bool :=
  match node_children n with
  | [bubble] =>
      match node_children bubble with
      | [dots] => JsString.eqb (node_class dots) (js "typing")
      | _ => false
      end
  | _ => false
  end.

(** The typing indicators among the children of the log. *)
Fixpoint indicators (l : list node) : list node :=
  match l with
  | [] => []
  | n :: l' => if is_typing n then n :: indicators l' else indicators l'
  end.

(** The other children of the log. *)
Fixpoint messages (l : list node) : list node :=
  match l with
  | [] => []
  | n :: l' => if is_typing n then messages l' else n :: messages l'
  end.

(** What a row of the log shows: its class and the markup of its bubble. *)
Definition shown (n : node) : jsstring * list jsstring :=
  (node_class n, List.map node_html (node_children n)).

(** [x.parentNode === chat], for a node that is only ever appended to the
    log: it is one of the log's children. *)
Definition attached (x : node) (log : list node) : bool :=
  existsb (fun n => Nat.eqb (node_uid n) (node_uid x)) log.

(** The children left by [chat.removeChild(x)]. *)
Fixpoint without (x : node) (log : list node) : list node :=
  match log with
  | [] => []
  | n :: log' =>
      if Nat.eqb (node_uid n) (node_uid x) then log' else n :: without x log'
  end.

(** ** Requests, effects and the page *)

(** The arguments of a [fetch] call; [body] is the value handed to
    [JSON.stringify]. *)
Record request : Type := {
  url : jsstring;
  method : jsstring;
  headers : list (jsstring * jsstring);
  body : value;
}.

Inductive logged : Type :=
| LogString (s : jsstring)
| LogValue (v : value)
| LogError (e : error).

Inductive effect : Type :=
| Alert (msg : jsstring)
| Fetch (rid : nat) (req : request)
| ConsoleError (args : list logged)
| UnhandledRejection (e : error).

(** The two [async] functions and the [await] each suspended call is at. *)
Inductive handler : Type := StartSession | Send.
Inductive stage : Type :=
| AwaitFetch                (* await fetch(...) *)
| AwaitJson (ok : bool).    (* await res.json(), with res.ok *)

Record page : Type := {
  API_BASE : jsstring;                    (* window.API_BASE *)
  chat : list node;                       (* children of #chat *)
  userInput : jsstring;                   (* userInput.value *)
  msgInput : jsstring;                    (* msgInput.value *)
  currentUser : jsstring;
  typingEl : option node;
  next_uid : nat;                         (* identities of elements *)
  next_rid : nat;                         (* identities of requests *)
  pending : gmap nat (handler * stage);   (* suspended calls *)
  effects : list effect;                  (* oldest first *)
}.

Definition set_chat (c : list node) (p : page) : page :=
  {| API_BASE := API_BASE p; chat := c; userInput := userInput p;
     msgInput := msgInput p; currentUser := currentUser p;
     typingEl := typingEl p; next_uid := next_uid p; next_rid := next_rid p;
     pending := pending p; effects := effects p |}.
Definition set_userInput (s : jsstring) (p : page) : page :=
  {| API_BASE := API_BASE p; chat := chat p; userInput := s;
     msgInput := msgInput p; currentUser := currentUser p;
     typingEl := typingEl p; next_uid := next_uid p; next_rid := next_rid p;
     pending := pending p; effects := effects p |}.
Definition set_msgInput (s : jsstring) (p : page) : page :=
  {| API_BASE := API_BASE p; chat := chat p; userInput := userInput p;
     msgInput := s; currentUser := currentUser p;
     typingEl := typingEl p; next_uid := next_uid p; next_rid := next_rid p;
     pending := pending p; effects := effects p |}.
Definition set_currentUser (s : jsstring) (p : page) : page :=
  {| API_BASE := API_BASE p; chat := chat p; userInput := userInput p;
     msgInput := msgInput p; currentUser := s;
     typingEl := typingEl p; next_uid := next_uid p; next_rid := next_rid p;
     pending := pending p; effects := effects p |}.
Definition set_typingEl (t : option node) (p : page) : page :=
  {| API_BASE := API_BASE p; chat := chat p; userInput := userInput p;
     msgInput := msgInput p; currentUser := currentUser p;
     typingEl := t; next_uid := next_uid p; next_rid := next_rid p;
     pending := pending p; effects := effects p |}.
Definition set_next_uid (n : nat) (p : page) : page :=
  {| API_BASE := API_BASE p; chat := chat p; userInput := userInput p;
     msgInput := msgInput p; currentUser := currentUser p;
     typingEl := typingEl p; next_uid := n; next_rid := next_rid p;
     pending := pending p; effects := effects p |}.
Definition set_next_rid (n : nat) (p : page) : page :=
  {| API_BASE := API_BASE p; chat := chat p; userInput := userInput p;
     msgInput := msgInput p; currentUser := currentUser p;
     typingEl := typingEl p; next_uid := next_uid p; next_rid := n;
     pending := pending p; effects := effects p |}.
Definition set_pending (m : gmap nat (handler * stage)) (p : page) : page :=
  {| API_BASE := API_BASE p; chat := chat p; userInput := userInput p;
     msgInput := msgInput p; currentUser := currentUser p;
     typingEl := typingEl p; next_uid := next_uid p; next_rid := next_rid p;
     pending := m; effects := effects p |}.
Definition emit (e : effect) (p : page) : page :=
  {| API_BASE := API_BASE p; chat := chat p; userInput := userInput p;
     msgInput := msgInput p; currentUser := currentUser p;
     typingEl := typingEl p; next_uid := next_uid p; next_rid := next_rid p;
     pending := pending p; effects := effects p ++ [e] |}.

(** The page as the script finds it when it is loaded. *)
Definition initial (base : jsstring) : page :=
  {| API_BASE := base; chat := []; userInput := []; msgInput := [];
     currentUser := []; typingEl := None; next_uid := 0%nat;
     next_rid := 0%nat; pending := ∅; effects := [] |}.

(** ** Statements that may throw *)

Inductive outcome (A : Type) : Type :=
| Done (a : A) (p : page)
| Thrown (e : error) (p : page).
Arguments Done {A} a p.
Arguments Thrown {A} e p.

Definition M (A : Type) : Type := page -> outcome A.

Definition ret {A} (a : A) : M A := fun p => Done a p.
Definition throw {A} (e : error) : M A := fun p => Thrown e p.
Definition bind {A B} (m : M A) (f : A -> M B) : M B :=
  fun p => match m p with
           | Done a p' => f a p'
           | Thrown e p' => Thrown e p'
           end.
Definition modify (f : page -> page) : M unit := fun p => Done tt (f p).
Definition read {A} (f : page -> A) : M A := fun p => Done (f p) p.

(** [try { m } catch (err) { h err }]. *)
Definition try_catch {A} (m : M A) (h : error -> M A) : M A :=
  fun p => match m p with
           | Done a p' => Done a p'
           | Thrown e p' => h e p'
           end.

Declare Scope js_scope.
Delimit Scope js_scope with js.
Notation "x <- m ;; k" := (bind m (fun x => k))
  (at level 100, m at next level, right associativity) : js_scope.
Notation "m ;; k" := (bind m (fun _ => k))
  (at level 100, right associativity) : js_scope.
Local Open Scope js_scope.

(** The page a handler leaves behind; an error that escapes an [async]
    function rejects its promise, which nobody handles. *)
Definition run (m : M unit) (p : page) : page :=
  match m p with
  | Done _ p' => p'
  | Thrown e p' => emit (UnhandledRejection e) p'
  end.

(** ** The helpers of the script *)

Definition createElement : M node :=
  fun p => Done (Element (next_uid p) [] [] [])
                (set_next_uid (S (next_uid p)) p).

(** [chat.appendChild(n)]. *)
Definition chat_appendChild (n : node) : M unit :=
  modify (fun p => set_chat (chat p ++ [n]) p).

(** [chat.removeChild(x)] throws when [x] is not a child of the log. *)
Definition chat_removeChild (x : node) : M unit :=
  fun p => if attached x (chat p)
           then Done tt (set_chat (without x (chat p)) p)
           else Thrown NotFoundError p.

Definition alert (msg : jsstring) : M unit := modify (emit (Alert msg)).
Definition console_error (args : list logged) : M unit :=
  modify (emit (ConsoleError args)).

Definition DQUOTE : N := 34.
Definition APOSTROPHE : N := 8217.

Definition dot_span : jsstring :=
  js "<span class=" ++ [DQUOTE] ++ js "dot" ++ [DQUOTE] ++ js "></span>".

(** [addMessage(role, text)]. The row is appended only after [renderText]
    has returned; the scroll position of the log is not modelled. *)
Definition addMessage (role : jsstring) (text : value) : M unit :=
  row <- createElement ;;
  let row := set_className row
    (js "msg " ++ (if JsString.eqb role (js "user")
                   then js "user-msg" else js "assistant-msg")) in
  bubble <- createElement ;;
  let bubble := set_className bubble (js "bubble") in
  match renderText text with
  | inl e => throw e
  | inr markup =>
      let bubble := set_innerHTML bubble markup in
      let row := appendChild row bubble in
      chat_appendChild row
  end.

(** [showTyping()]. [typingEl] refers to the element that ends up in the
    log, so the slot is filled with the element as built. *)
Definition showTyping : M unit :=
  slot <- read typingEl ;;
  match slot with
  | Some _ => ret tt
  | None =>
      row <- createElement ;;
      let row := set_className row (js "msg assistant-msg") in
      bubble <- createElement ;;
      let bubble := set_className bubble (js "bubble") in
      dots <- createElement ;;
      let dots := set_className dots (js "typing") in
      let dots := set_innerHTML dots (dot_span ++ dot_span ++ dot_span) in
      let bubble := appendChild bubble dots in
      let row := appendChild row bubble in
      modify (set_typingEl (Some row)) ;;
      chat_appendChild row
  end.

(** [hideTyping()]. *)
Definition hideTyping : M unit :=
  slot <- read typingEl ;;
  match slot with
  | None => ret tt
  | Some el =>
      log <- read chat ;;
      (if attached el log then chat_removeChild el else ret tt) ;;
      modify (set_typingEl None)
  end.

(** ** startSession *)

Definition json_headers : list (jsstring * jsstring) :=
  [(js "Content-Type", js "application/json")].

(** [fetch(url, init)] followed by [await]: the request leaves, and the
    call is suspended until the event loop settles it. *)
Definition fetch_and_suspend (h : handler) (path : jsstring) (payload : value)
  : M unit :=
  modify (fun p =>
    let rid := next_rid p in
    let req := {| url := API_BASE p ++ path; method := js "POST";
                  headers := json_headers; body := payload |} in
    set_pending (<[rid := (h, AwaitFetch)]> (pending p))
      (set_next_rid (S rid) (emit (Fetch rid req) p))).

(** The [catch] block of [startSession]. *)
Definition startSession_catch (err : error) : M unit :=
  hideTyping ;;
  addMessage (js "assistant")
    (VString (js "Failed to start session. Please try again.")) ;;
  console_error [LogError err].

(** [startSession()] up to [await fetch(...)]. *)
Definition startSession : M unit :=
  raw <- read userInput ;;
  let userId := JsString.trim raw in
  if JsString.is_empty userId then alert (js "Enter your name")
  else
    modify (set_currentUser userId) ;;
    showTyping ;;
    fetch_and_suspend StartSession (js "/api/start_session")
      (VObject [(js "user_id", VString userId)]).

(** [startSession()] from the resolution of [res.json()] on. *)
Definition startSession_resume (ok : bool) (data : value) : M unit :=
  try_catch
    (hideTyping ;;
     modify (set_chat []) ;;
     if ok && truthy data && truthy (get_prop data (js "message"))
     then addMessage (js "assistant") (get_prop data (js "message"))
     else
       addMessage (js "assistant")
         (VString (js "Welcome back! You can start chatting.")) ;;
       console_error
         [LogString (js "Unexpected start_session payload:"); LogValue data])
    startSession_catch.

(** ** send *)

Definition send_catch (err : error) : M unit :=
  hideTyping ;;
  addMessage (js "assistant")
    (VString (js "Network error. Please try again.")) ;;
  console_error [LogError err].

(** [send()] up to [await fetch(...)]. *)
Definition send : M unit :=
  raw <- read msgInput ;;
  let text := JsString.trim raw in
  user <- read currentUser ;;
  if JsString.is_empty text || JsString.is_empty user then ret tt
  else
    addMessage (js "user") (VString text) ;;
    modify (set_msgInput []) ;;
    showTyping ;;
    fetch_and_suspend Send (js "/api/chat")
      (VObject [(js "user_id", VString user); (js "message", VString text)]).

(** [send()] from the resolution of [res.json()] on. *)
Definition send_resume (ok : bool) (data : value) : M unit :=
  try_catch
    (hideTyping ;;
     if ok && truthy data && truthy (get_prop data (js "response"))
     then addMessage (js "assistant") (get_prop data (js "response"))
     else
       addMessage (js "assistant")
         (VString (js "Hmm, I didn" ++ [APOSTROPHE]
                   ++ js "t get a response. Please try again.")) ;;
       console_error
         [LogString (js "Unexpected chat payload:"); LogValue data])
    send_catch.

(** ** The event loop *)

(** What the browser can deliver to the script: edits of the two input
    fields, the three listeners registered at the end of the script, and
    the settlements of the promises the suspended calls await. *)
Inductive event : Type :=
| TypeUserId (s : jsstring)
| TypeMessage (s : jsstring)
| ClickStart
| ClickSend
| KeyDown (key : jsstring)
| FetchRejected (rid : nat)
| FetchResolved (rid : nat) (ok : bool)
| JsonRejected (rid : nat)
| JsonResolved (rid : nat) (data : value).

Definition catch_of (h : handler) : error -> M unit :=
  match h with
  | StartSession => startSession_catch
  | Send => send_catch
  end.

Definition resume_of (h : handler) : bool -> value -> M unit :=
  match h with
  | StartSession => startSession_resume
  | Send => send_resume
  end.

(** One turn of the event loop. A settlement for a call that is not
    suspended at that [await] does not occur; it changes nothing. *)
Definition step (p : page) (ev : event) : page :=
  match ev with
  | TypeUserId s => set_userInput s p
  | TypeMessage s => set_msgInput s p
  | ClickStart => run startSession p
  | ClickSend => run send p
  | KeyDown key => if JsString.eqb key (js "Enter") then run send p else p
  | FetchRejected rid =>
      match pending p !! rid with
      | Some (h, AwaitFetch) =>
          run (catch_of h NetworkError) (set_pending (delete rid (pending p)) p)
      | _ => p
      end
  | FetchResolved rid ok =>
      match pending p !! rid with
      | Some (h, AwaitFetch) =>
          set_pending (<[rid := (h, AwaitJson ok)]> (pending p)) p
      | _ => p
      end
  | JsonRejected rid =>
      match pending p !! rid with
      | Some (h, AwaitJson _) =>
          run (catch_of h SyntaxError) (set_pending (delete rid (pending p)) p)
      | _ => p
      end
  | JsonResolved rid data =>
      match pending p !! rid with
      | Some (h, AwaitJson ok) =>
          run (resume_of h ok data) (set_pending (delete rid (pending p)) p)
      | _ => p
      end
  end.

Definition steps (p : page) (evs : list event) : page :=
  fold_left step evs p.

(** The pages the script can be in between two turns of the event loop. *)
Inductive reachable : page -> Prop :=
| reachable_initial base : reachable (initial base)
| reachable_step p ev : reachable p -> reachable (step p ev).

(** ** The typing indicator and the log *)

(** The slot and the log agree: the indicators attached to the log are
    exactly what [typingEl] refers to; identities are unique and drawn
    below the allocator. *)
Record consistent (p : page) : Prop := {
  c_indicators : indicators (chat p) = option_list (typingEl p);
  c_fresh : Forall (fun n => (node_uid n < next_uid p)%nat) (chat p);
  c_nodup : NoDup (node_uid <$> chat p);
}.

(** ** Vocabulary of the statements *)

(** [hoare P m Q E]: from a page in [P], [m] returns in [Q] or throws in
    [E]. *)
Definition hoare {A} (P : page -> Prop) (m : M A) (Q E : page -> Prop) : Prop :=
  forall p, P p ->
    match m p with
    | Done _ p' => Q p'
    | Thrown _ p' => E p'
    end.

Definition role_class (role : jsstring) : jsstring :=
  js "msg " ++ (if JsString.eqb role (js "user")
                then js "user-msg" else js "assistant-msg").

(** The row [addMessage] appends. *)
Definition message_row (u : nat) (role markup : jsstring) : node :=
  Element u (role_class role) [] [Element (S u) (js "bubble") markup []].

(** The row [showTyping] appends. *)
Definition typing_row (u : nat) : node :=
  Element u (js "msg assistant-msg") []
    [Element (S u) (js "bubble") []
       [Element (S (S u)) (js "typing") (dot_span ++ dot_span ++ dot_span) []]].

(** [consistent] together with a property of the slot. *)
Definition slot_is (T : option node -> Prop) (p : page) : Prop :=
  consistent p /\ T (typingEl p).

Definition hidden (o : option node) : Prop := o = None.

Definition any_slot (o : option node) : Prop := True.

Definition user_is (u : jsstring) (p : page) : Prop := currentUser p = u.

(** The page after [showTyping()]. *)
Definition with_indicator (p : page) : page :=
  match typingEl p with
  | Some _ => p
  | None =>
      set_chat (chat p ++ [typing_row (next_uid p)])
        (set_typingEl (Some (typing_row (next_uid p)))
           (set_next_uid (S (S (S (next_uid p)))) p))
  end.

(** The request a handler sends. *)
Definition post (p : page) (path : jsstring) (payload : value) : request :=
  {| url := API_BASE p ++ path; method := js "POST";
     headers := json_headers; body := payload |}.

Definition start_request (p : page) : request :=
  post p (js "/api/start_session")
    (VObject [(js "user_id", VString (JsString.trim (userInput p)))]).

Definition chat_request (p : page) : request :=
  post p (js "/api/chat")
    (VObject [(js "user_id", VString (currentUser p));
              (js "message", VString (JsString.trim (msgInput p)))]).

(** A [catch] block on a consistent page: the indicator goes, the
    message is appended, the error is logged. *)
Definition caught (text : jsstring) (e : error) (p : page) : page :=
  emit (ConsoleError [LogError e])
    (set_chat (messages (chat p)
               ++ [message_row (next_uid p) (js "assistant") (renderText_str text)])
       (set_next_uid (S (S (next_uid p))) (set_typingEl None p))).

(** The two ways a request fails: [fetch] rejects, or the response
    arrives (with whatever status) and its body is not JSON. *)
Inductive failure : Type :=
| NetworkFails
| BodyNotJson (ok : bool).

Definition failure_events (rid : nat) (f : failure) : list event :=
  match f with
  | NetworkFails => [FetchRejected rid]
  | BodyNotJson ok => [FetchResolved rid ok; JsonRejected rid]
  end.

Definition failure_error (f : failure) : error :=
  match f with
  | NetworkFails => NetworkError
  | BodyNotJson _ => SyntaxError
  end.

Definition catch_text (h : handler) : jsstring :=
  match h with
  | StartSession => js "Failed to start session. Please try again."
  | Send => js "Network error. Please try again."
  end.

Definition is_start (ev : event) : bool :=
  match ev with ClickStart => true | _ => false end.

(** [inert pat t]: the inserted or removed text [t] neither contains nor
    completes an occurrence of [pat]. *)
Record inert (pat t : jsstring) : Prop := {
  inert_head : match t with [] => False | c :: _ => c ∉ tail pat end;
  inert_skip : forall s, JsString.count_sub pat (t ++ s) = JsString.count_sub pat s;
}.

(** Text that emphasis leaves alone: no asterisk, no line terminator. *)
Definition plain (s : jsstring) : Prop :=
  forallb (fun c => negb (STAR =? c) && negb (JsString.line_terminator c)) s
  = true.

(** The page a settlement leaves: the slot is empty, the log is [log],
    [logs] have been written to the console; the inputs, the session
    and the bookkeeping of requests are as before. *)
Definition settled (p : page) (log : list node) (n : nat) (logs : list effect)
  : page :=
  {| API_BASE := API_BASE p; chat := log; userInput := userInput p;
     msgInput := msgInput p; currentUser := currentUser p;
     typingEl := None; next_uid := n; next_rid := next_rid p;
     pending := pending p; effects := effects p ++ logs |}.

Definition is_console (e : effect) : bool :=
  match e with ConsoleError _ => true | _ => false end.

Definition is_rejection (e : effect) : bool :=
  match e with UnhandledRejection _ => true | _ => false end.

(** The page after a request has left and its call is suspended. *)
Definition dispatched (h : handler) (req : request) (p q : page) : page :=
  set_pending (<[next_rid p := (h, AwaitFetch)]> (pending p))
    (set_next_rid (S (next_rid p)) (emit (Fetch (next_rid p) req) q)).

(** The page after [send] has shown the text and emptied the field. *)
Definition typed_in (p : page) : page :=
  set_msgInput []
    (set_chat (chat p ++ [message_row (next_uid p) (js "user")
                            (renderText_str (JsString.trim (msgInput p)))])
       (set_next_uid (S (S (next_uid p))) p)).

(** The kinds of turns the event loop takes. *)
Inductive turn (p : page) : page -> Prop :=
| turn_edit_user s : turn p (set_userInput s p)
| turn_edit_msg s : turn p (set_msgInput s p)
| turn_ignored : turn p p
| turn_alert :
    JsString.is_empty (JsString.trim (userInput p)) = true ->
    turn p (emit (Alert (js "Enter your name")) p)
| turn_start :
    JsString.is_empty (JsString.trim (userInput p)) = false ->
    turn p (dispatched StartSession (start_request p) p
              (with_indicator
                 (set_currentUser (JsString.trim (userInput p)) p)))
| turn_send :
    JsString.is_empty (JsString.trim (msgInput p)) = false ->
    JsString.is_empty (currentUser p) = false ->
    turn p (dispatched Send (chat_request p) p (with_indicator (typed_in p)))
| turn_response rid h ok :
    pending p !! rid = Some (h, AwaitFetch) ->
    turn p (set_pending (<[rid := (h, AwaitJson ok)]> (pending p)) p)
| turn_settled rid h st (clear : bool) rows n logs :
    pending p !! rid = Some (h, st) ->
    (clear = true -> h = StartSession /\ exists ok, st = AwaitJson ok) ->
    indicators rows = [] -> length rows = 1%nat ->
    forallb is_console logs = true ->
    turn p (settled (set_pending (delete rid (pending p)) p)
              ((if clear then [] else messages (chat p)) ++ rows) n logs).

(** A string that [trim] has produced. *)
Definition trimmed (s : jsstring) : Prop := exists raw, s = JsString.trim raw.

(** The two requests of the script, as they should leave: to the
    configured base, with a non-empty trimmed user id and, for a chat
    request, a non-empty trimmed message. *)
Definition sent_ok (base : jsstring) (e : effect) : Prop :=
  match e with
  | Fetch _ req =>
      (exists u, u <> [] /\ trimmed u /\
         req = {| url := base ++ js "/api/start_session"; method := js "POST";
                  headers := json_headers;
                  body := VObject [(js "user_id", VString u)] |})
      \/ (exists u t, u <> [] /\ trimmed u /\ t <> [] /\ trimmed t /\
         req = {| url := base ++ js "/api/chat"; method := js "POST";
                  headers := json_headers;
                  body := VObject [(js "user_id", VString u);
                                   (js "message", VString t)] |})
  | _ => True
  end.

Record tidy (base : jsstring) (p : page) : Prop := {
  tidy_base : API_BASE p = base;
  tidy_user : trimmed (currentUser p);
  tidy_sent : Forall (sent_ok base) (effects p);
}.

(** No error has escaped a handler. *)
Definition quiet (p : page) : Prop :=
  forallb (fun e => negb (is_rejection e)) (effects p) = true.

(** Request identities at or above the allocator are free, and an
    attached indicator has a suspended call behind it. *)
Record live (p : page) : Prop := {
  live_fresh : forall rid, (next_rid p <= rid)%nat -> pending p !! rid = None;
  live_slot : typingEl p <> None -> pending p <> ∅;
}.

(** [ev] is the event that ends a call suspended at [st]: the rejection
    of its [fetch], or the outcome of parsing the body. *)
Definition settles (rid : nat) (st : stage) (ev : event) : Prop :=
  match st with
  | AwaitFetch => ev = FetchRejected rid
  | AwaitJson _ => ev = JsonRejected rid \/ exists data, ev = JsonResolved rid data
  end.

(** * Properties *)

(** ** Lists of rows *)

Section Rows.
Implicit Types (l : list node) (n x : node).

Lemma indicators_app l1 l2 :
  indicators (l1 ++ l2) = indicators l1 ++ indicators l2.
Proof.
  induction l1 as [|n l1 IH]; simpl; [done|].
  destruct (is_typing n); simpl; by rewrite IH.
Qed.

Lemma messages_app l1 l2 :
  messages (l1 ++ l2) = messages l1 ++ messages l2.
Proof.
  induction l1 as [|n l1 IH]; simpl; [done|].
  destruct (is_typing n); simpl; by rewrite IH.
Qed.

Lemma messages_id l : indicators l = [] -> messages l = l.
Proof.
  induction l as [|n l IH]; simpl; [done|].
  destruct (is_typing n); [done|]. intros H. by rewrite IH.
Qed.

Lemma indicators_messages l : indicators (messages l) = [].
Proof.
  induction l as [|n l IH]; simpl; [done|].
  destruct (is_typing n) eqn:E; simpl; [done|]. by rewrite E.
Qed.

Lemma indicators_elem l x : x ∈ indicators l -> x ∈ l /\ is_typing x = true.
Proof.
  induction l as [|n l IH]; simpl; [by intros ?%elem_of_nil|].
  destruct (is_typing n) eqn:E.
  - intros [->|H]%elem_of_cons; [split; [left|done]|].
    destruct (IH H). split; [by right|done].
  - intros H. destruct (IH H). split; [by right|done].
Qed.

Lemma messages_elem l x : x ∈ messages l -> x ∈ l.
Proof.
  induction l as [|n l IH]; simpl; [done|].
  destruct (is_typing n).
  - intros H. right. by apply IH.
  - intros [->|H]%elem_of_cons; [left|right; by apply IH].
Qed.

Lemma attached_elem l x : x ∈ l -> attached x l = true.
Proof.
  intros H. unfold attached. apply existsb_exists.
  exists x. split; [by apply list_elem_of_In|]. apply Nat.eqb_refl.
Qed.

(** Removing the one indicator of a log leaves its messages. *)
Lemma without_indicator l x :
  NoDup (node_uid <$> l) -> indicators l = [x] ->
  without x l = messages l.
Proof.
  induction l as [|n l IH]; simpl; [done|].
  intros [Hn Hl]%NoDup_cons.
  destruct (is_typing n) eqn:E.
  - intros [= -> Hrest]. rewrite Nat.eqb_refl. by rewrite messages_id.
  - intros Hx.
    assert (x ∈ l) as Hin.
    { apply (indicators_elem l x). rewrite Hx. by left. }
    destruct (Nat.eqb_spec (node_uid n) (node_uid x)) as [Heq|_].
    + exfalso. apply Hn. rewrite Heq. by apply list_elem_of_fmap_2.
    + by rewrite IH.
Qed.

Lemma Forall_messages (P : node -> Prop) l : Forall P l -> Forall P (messages l).
Proof.
  induction 1 as [|n l Hn Hl IH]; simpl; [constructor|].
  destruct (is_typing n); [done|]. by constructor.
Qed.

Lemma NoDup_uid_messages l :
  NoDup (node_uid <$> l) -> NoDup (node_uid <$> messages l).
Proof.
  induction l as [|n l IH]; simpl; [done|].
  intros [Hn Hl]%NoDup_cons.
  destruct (is_typing n); [by apply IH|].
  simpl. apply NoDup_cons. split; [|by apply IH].
  intros (m & Hm & Hin)%list_elem_of_fmap. apply Hn.
  rewrite Hm. apply list_elem_of_fmap_2. by apply messages_elem.
Qed.

Lemma NoDup_uid_snoc l n :
  Forall (fun k => (node_uid k < node_uid n)%nat) l ->
  NoDup (node_uid <$> l) ->
  NoDup (node_uid <$> l ++ [n]).
Proof.
  intros Hlt Hnd. rewrite fmap_app. simpl.
  apply NoDup_app. split; [done|]. split; [|apply NoDup_singleton].
  intros u (k & -> & Hk)%list_elem_of_fmap Hu.
  rewrite Forall_forall in Hlt. specialize (Hlt k Hk).
  apply list_elem_of_singleton in Hu. lia.
Qed.

End Rows.

(** ** A program logic for [M] *)

Section Hoare.
Context {A B : Type}.
Implicit Types (P Q R E : page -> Prop).

Lemma hoare_ret P E (a : A) : hoare P (ret a) P E.
Proof. by intros p HP. Qed.

Lemma hoare_throw P Q (e : error) : hoare P (throw (A:=A) e) Q P.
Proof. by intros p HP. Qed.

Lemma hoare_bind P Q R E (m : M A) (f : A -> M B) :
  hoare P m Q E -> (forall a, hoare Q (f a) R E) -> hoare P (bind m f) R E.
Proof.
  intros Hm Hf p HP. unfold bind. specialize (Hm p HP).
  destruct (m p) as [a p'|e p']; [by apply Hf|done].
Qed.

Lemma hoare_try P Q E E' (m : M A) (h : error -> M A) :
  hoare P m Q E -> (forall e, hoare E (h e) Q E') ->
  hoare P (try_catch m h) Q E'.
Proof.
  intros Hm Hh p HP. unfold try_catch. specialize (Hm p HP).
  destruct (m p) as [a p'|e p']; [done|by apply Hh].
Qed.

Lemma hoare_weaken P P' Q Q' E E' (m : M A) :
  hoare P' m Q' E' ->
  (forall p, P p -> P' p) -> (forall p, Q' p -> Q p) ->
  (forall p, E' p -> E p) ->
  hoare P m Q E.
Proof.
  intros Hm HP HQ HE p Hp. specialize (Hm p (HP p Hp)).
  destruct (m p); auto.
Qed.

Lemma hoare_read P E (f : page -> A) : hoare P (read f) P E.
Proof. by intros p HP. Qed.

Lemma hoare_if P Q E (b : bool) (m1 m2 : M A) :
  hoare P m1 Q E -> hoare P m2 Q E -> hoare P (if b then m1 else m2) Q E.
Proof. by destruct b. Qed.

End Hoare.

Lemma hoare_modify P Q E (f : page -> page) :
  (forall p, P p -> Q (f p)) -> hoare P (modify f) Q E.
Proof. intros H p HP. by apply H. Qed.

(** After a handler has run, whether it returned or threw. *)
Lemma hoare_run P Q (m : M unit) p :
  hoare P m Q Q -> (forall e q, Q q -> Q (emit e q)) -> P p -> Q (run m p).
Proof.
  intros Hm He HP. unfold run. specialize (Hm p HP).
  destruct (m p); [done|by apply He].
Qed.

(** ** What the helpers compute *)

Lemma renderText_string s : renderText (VString s) = inr (renderText_str s).
Proof. by destruct s. Qed.

Lemma addMessage_string role s p :
  addMessage role (VString s) p =
  Done tt (set_chat (chat p ++ [message_row (next_uid p) role (renderText_str s)])
             (set_next_uid (S (S (next_uid p))) p)).
Proof.
  unfold addMessage, bind, createElement. rewrite renderText_string.
  reflexivity.
Qed.

Lemma addMessage_cases role v p :
  (exists markup, renderText v = inr markup /\
     addMessage role v p =
     Done tt (set_chat (chat p ++ [message_row (next_uid p) role markup])
                (set_next_uid (S (S (next_uid p))) p)))
  \/ (exists e, renderText v = inl e /\
     addMessage role v p = Thrown e (set_next_uid (S (S (next_uid p))) p)).
Proof.
  unfold addMessage, bind, createElement.
  destruct (renderText v) as [e|markup]; [right|left]; eauto.
Qed.

Lemma showTyping_shown p el : typingEl p = Some el -> showTyping p = Done tt p.
Proof. intros H. unfold showTyping, bind, read. by rewrite H. Qed.

Lemma showTyping_hidden p :
  typingEl p = None ->
  showTyping p =
  Done tt (set_chat (chat p ++ [typing_row (next_uid p)])
             (set_typingEl (Some (typing_row (next_uid p)))
                (set_next_uid (S (S (S (next_uid p)))) p))).
Proof. intros H. unfold showTyping, bind, read. by rewrite H. Qed.

Lemma hideTyping_none p : typingEl p = None -> hideTyping p = Done tt p.
Proof. intros H. unfold hideTyping, bind, read. by rewrite H. Qed.

Lemma hideTyping_some p el :
  typingEl p = Some el ->
  hideTyping p =
  Done tt (set_typingEl None
             (set_chat (if attached el (chat p)
                        then without el (chat p) else chat p) p)).
Proof.
  intros H. unfold hideTyping, bind, read, chat_removeChild, modify, ret.
  rewrite H. destruct (attached el (chat p)) eqn:E; [|by destruct p].
  by rewrite E.
Qed.

Lemma is_typing_message_row u role markup :
  is_typing (message_row u role markup) = false.
Proof. reflexivity. Qed.

Lemma is_typing_typing_row u : is_typing (typing_row u) = true.
Proof. reflexivity. Qed.

(** [hideTyping()], whatever the slot holds. *)
Lemma hideTyping_eq p :
  hideTyping p =
  Done tt
    match typingEl p with
    | None => p
    | Some el =>
        set_typingEl None
          (if attached el (chat p) then set_chat (without el (chat p)) p else p)
    end.
Proof.
  destruct (typingEl p) as [el|] eqn:Hslot.
  - rewrite (hideTyping_some p el Hslot).
    destruct (attached el (chat p)); [done|]. by destruct p.
  - by rewrite (hideTyping_none p Hslot).
Qed.

(** ** The slot and the log stay consistent *)

Lemma consistent_ext p q :
  chat q = chat p -> typingEl q = typingEl p -> next_uid q = next_uid p ->
  consistent p -> consistent q.
Proof.
  intros Hc Ht Hn [H1 H2 H3]. split; rewrite ?Hc, ?Ht, ?Hn; done.
Qed.

Lemma slot_is_ext T p q :
  chat q = chat p -> typingEl q = typingEl p -> next_uid q = next_uid p ->
  slot_is T p -> slot_is T q.
Proof.
  intros Hc Ht Hn [H1 H2]. split; [by eapply consistent_ext|by rewrite Ht].
Qed.

Lemma consistent_initial base : consistent (initial base).
Proof. split; simpl; [done|constructor|constructor]. Qed.

(** Appending a fresh row that is not an indicator. *)
Lemma consistent_append_message p u role markup k :
  (next_uid p <= u)%nat -> (u < k)%nat ->
  consistent p ->
  consistent (set_chat (chat p ++ [message_row u role markup]) (set_next_uid k p)).
Proof.
  intros Hu Hk [H1 H2 H3]. split; simpl.
  - rewrite indicators_app. simpl. by rewrite app_nil_r.
  - apply Forall_app. split.
    + eapply Forall_impl; [exact H2|]. simpl. intros; lia.
    + constructor; [simpl; lia|constructor].
  - apply NoDup_uid_snoc; [|done].
    eapply Forall_impl; [exact H2|]. simpl. intros; lia.
Qed.

Lemma consistent_bump p k :
  (next_uid p <= k)%nat -> consistent p -> consistent (set_next_uid k p).
Proof.
  intros Hk [H1 H2 H3]. split; simpl; [done| |done].
  eapply Forall_impl; [exact H2|]. simpl. intros; lia.
Qed.

Lemma hoare_addMessage T role v :
  hoare (slot_is T) (addMessage role v) (slot_is T) (slot_is T).
Proof.
  intros p [Hc HT].
  destruct (addMessage_cases role v p) as [(m & _ & ->)|(e & _ & ->)].
  - split; [|done]. apply consistent_append_message; [lia|lia|done].
  - split; [|done]. apply consistent_bump; [simpl; lia|done].
Qed.

Lemma hoare_showTyping T E :
  hoare (slot_is T) showTyping (slot_is any_slot) E.
Proof.
  intros p [Hc HT]. destruct (typingEl p) as [el|] eqn:Hslot.
  - rewrite (showTyping_shown p el Hslot). by split.
  - rewrite (showTyping_hidden p Hslot). split; [|done].
    destruct Hc as [H1 H2 H3]. rewrite Hslot in H1. split; simpl.
    + rewrite indicators_app, H1. reflexivity.
    + apply Forall_app. split.
      * eapply Forall_impl; [exact H2|]. simpl. intros; lia.
      * constructor; [simpl; lia|constructor].
    + apply NoDup_uid_snoc; [|done].
      eapply Forall_impl; [exact H2|]. simpl. intros; lia.
Qed.

(** What [hideTyping] leaves of a consistent log: its messages. *)
Lemma hideTyping_consistent p :
  consistent p ->
  hideTyping p = Done tt (set_typingEl None (set_chat (messages (chat p)) p)).
Proof.
  intros [H1 H2 H3]. destruct (typingEl p) as [el|] eqn:Hslot.
  - rewrite (hideTyping_some p el Hslot). simpl in H1.
    rewrite attached_elem.
    + by rewrite (without_indicator _ _ H3 H1).
    + apply (indicators_elem (chat p) el). rewrite H1. by left.
  - rewrite (hideTyping_none p Hslot). simpl in H1.
    rewrite (messages_id _ H1). destruct p; simpl in *. by subst.
Qed.

Lemma consistent_hidden p :
  consistent p -> consistent (set_typingEl None (set_chat (messages (chat p)) p)).
Proof.
  intros [H1 H2 H3]. split; simpl.
  - apply indicators_messages.
  - by apply Forall_messages.
  - by apply NoDup_uid_messages.
Qed.

Lemma hoare_hideTyping T E :
  hoare (slot_is T) hideTyping (slot_is hidden) E.
Proof.
  intros p [Hc _]. rewrite (hideTyping_consistent p Hc).
  split; [by apply consistent_hidden|done].
Qed.

Lemma hoare_frame T E (f : page -> page) :
  (forall p, chat (f p) = chat p) -> (forall p, typingEl (f p) = typingEl p) ->
  (forall p, next_uid (f p) = next_uid p) ->
  hoare (slot_is T) (modify f) (slot_is T) E.
Proof.
  intros Hc Ht Hn. apply hoare_modify. intros p Hp.
  apply (slot_is_ext T p); auto.
Qed.

Lemma hoare_clear_log E :
  hoare (slot_is hidden) (modify (set_chat [])) (slot_is hidden) E.
Proof.
  apply hoare_modify. intros p [[H1 H2 H3] Hs]. split; [|done].
  split; simpl; [by rewrite Hs|constructor|constructor].
Qed.

Lemma slot_is_any T p : slot_is T p -> slot_is any_slot p.
Proof. by intros [Hc _]. Qed.

Ltac hoare_seq lem := eapply hoare_bind; [apply lem|intros ?].
Ltac hoare_frame_step :=
  eapply hoare_bind; [apply hoare_frame; by intros []|intros ?].
Ltac hoare_last_frame := apply hoare_frame; by intros [].

Lemma hoare_startSession_catch T e :
  hoare (slot_is T) (startSession_catch e) (slot_is hidden) (slot_is hidden).
Proof.
  unfold startSession_catch.
  hoare_seq hoare_hideTyping. hoare_seq hoare_addMessage.
  unfold console_error. hoare_last_frame.
Qed.

Lemma hoare_send_catch T e :
  hoare (slot_is T) (send_catch e) (slot_is hidden) (slot_is hidden).
Proof.
  unfold send_catch.
  hoare_seq hoare_hideTyping. hoare_seq hoare_addMessage.
  unfold console_error. hoare_last_frame.
Qed.

Lemma hoare_startSession T :
  hoare (slot_is T) startSession (slot_is any_slot) (slot_is any_slot).
Proof.
  unfold startSession.
  eapply hoare_bind; [apply hoare_read|intros raw].
  apply hoare_if.
  - apply (hoare_weaken _ (slot_is T) _ (slot_is T) _ (slot_is T));
      [unfold alert; apply hoare_frame; by intros []
      |done|apply slot_is_any|apply slot_is_any].
  - hoare_frame_step. hoare_seq hoare_showTyping.
    unfold fetch_and_suspend. hoare_last_frame.
Qed.

Lemma hoare_send T :
  hoare (slot_is T) send (slot_is any_slot) (slot_is any_slot).
Proof.
  unfold send.
  eapply hoare_bind; [apply hoare_read|intros raw].
  eapply hoare_bind; [apply hoare_read|intros user].
  apply hoare_if.
  - apply (hoare_weaken _ (slot_is T) _ (slot_is T) _ (slot_is T));
      [apply hoare_ret|done|apply slot_is_any|apply slot_is_any].
  - apply (hoare_weaken _ (slot_is T) _ (slot_is any_slot) _ (slot_is T));
      [|done|done|apply slot_is_any].
    hoare_seq hoare_addMessage. hoare_frame_step. hoare_seq hoare_showTyping.
    unfold fetch_and_suspend. hoare_last_frame.
Qed.

Lemma hoare_startSession_resume T ok data :
  hoare (slot_is T) (startSession_resume ok data)
        (slot_is hidden) (slot_is hidden).
Proof.
  unfold startSession_resume.
  eapply hoare_try; [|intros e; apply hoare_startSession_catch].
  hoare_seq hoare_hideTyping. hoare_seq hoare_clear_log.
  apply hoare_if; [apply hoare_addMessage|].
  hoare_seq hoare_addMessage. unfold console_error. hoare_last_frame.
Qed.

Lemma hoare_send_resume T ok data :
  hoare (slot_is T) (send_resume ok data) (slot_is hidden) (slot_is hidden).
Proof.
  unfold send_resume.
  eapply hoare_try; [|intros e; apply hoare_send_catch].
  hoare_seq hoare_hideTyping.
  apply hoare_if; [apply hoare_addMessage|].
  hoare_seq hoare_addMessage. unfold console_error. hoare_last_frame.
Qed.

Lemma consistent_slot p : consistent p <-> slot_is any_slot p.
Proof. split; [by split|by intros [H _]]. Qed.

Lemma consistent_run (m : M unit) Q E p :
  hoare (slot_is any_slot) m (slot_is Q) (slot_is E) ->
  consistent p -> consistent (run m p).
Proof.
  intros Hm Hc. unfold run. specialize (Hm p (proj1 (consistent_slot p) Hc)).
  destruct (m p) as [a q|e q]; destruct Hm as [Hq _]; [done|].
  revert Hq. by apply consistent_ext.
Qed.

Lemma consistent_set_pending m p :
  consistent p -> consistent (set_pending m p).
Proof. by apply consistent_ext. Qed.

Lemma consistent_catch_of h e p :
  consistent p -> consistent (run (catch_of h e) p).
Proof.
  destruct h; simpl; eapply consistent_run.
  - apply hoare_startSession_catch.
  - apply hoare_send_catch.
Qed.

Lemma consistent_resume_of h ok data p :
  consistent p -> consistent (run (resume_of h ok data) p).
Proof.
  destruct h; simpl; eapply consistent_run.
  - apply hoare_startSession_resume.
  - apply hoare_send_resume.
Qed.

(** Every turn of the event loop preserves consistency. *)
Lemma step_consistent p ev : consistent p -> consistent (step p ev).
Proof.
  intros Hc. destruct ev as [s|s| | |key|rid|rid ok|rid|rid data]; simpl.
  - revert Hc. by apply consistent_ext.
  - revert Hc. by apply consistent_ext.
  - revert Hc. eapply consistent_run, hoare_startSession.
  - revert Hc. eapply consistent_run, hoare_send.
  - destruct (JsString.eqb key (js "Enter")); [|done].
    revert Hc. eapply consistent_run, hoare_send.
  - destruct (pending p !! rid) as [[h [|ok]]|]; try done.
    by apply consistent_catch_of, consistent_set_pending.
  - destruct (pending p !! rid) as [[h [|ok']]|]; try done.
    by apply consistent_set_pending.
  - destruct (pending p !! rid) as [[h [|ok]]|]; try done.
    by apply consistent_catch_of, consistent_set_pending.
  - destruct (pending p !! rid) as [[h [|ok]]|]; try done.
    by apply consistent_resume_of, consistent_set_pending.
Qed.

Lemma reachable_consistent p : reachable p -> consistent p.
Proof.
  induction 1 as [base|p ev _ IH];
    [apply consistent_initial|by apply step_consistent].
Qed.

Lemma reachable_steps p evs : reachable p -> reachable (steps p evs).
Proof.
  revert p. induction evs as [|ev evs IH]; intros p Hp; simpl; [done|].
  apply IH. by constructor.
Qed.

(** ** Who writes [currentUser] *)

Lemma hoare_user_modify u E (f : page -> page) :
  (forall p, currentUser (f p) = currentUser p) ->
  hoare (user_is u) (modify f) (user_is u) E.
Proof.
  intros Hf. apply hoare_modify. intros p Hp. unfold user_is. by rewrite Hf.
Qed.

Lemma hoare_user_createElement u E :
  hoare (user_is u) createElement (user_is u) E.
Proof. by intros p Hp. Qed.

Lemma hoare_user_addMessage u role v :
  hoare (user_is u) (addMessage role v) (user_is u) (user_is u).
Proof.
  intros p Hp.
  by destruct (addMessage_cases role v p) as [(m & _ & ->)|(e & _ & ->)].
Qed.

Lemma hoare_user_showTyping u E :
  hoare (user_is u) showTyping (user_is u) E.
Proof.
  intros p Hp. destruct (typingEl p) as [el|] eqn:Hslot.
  - by rewrite (showTyping_shown p el Hslot).
  - by rewrite (showTyping_hidden p Hslot).
Qed.

Lemma hoare_user_hideTyping u E :
  hoare (user_is u) hideTyping (user_is u) E.
Proof.
  intros p Hp. destruct (typingEl p) as [el|] eqn:Hslot.
  - by rewrite (hideTyping_some p el Hslot).
  - by rewrite (hideTyping_none p Hslot).
Qed.

Ltac user_modify := apply hoare_user_modify; by intros [].

Lemma hoare_user_startSession_catch u e :
  hoare (user_is u) (startSession_catch e) (user_is u) (user_is u).
Proof.
  unfold startSession_catch.
  hoare_seq hoare_user_hideTyping. hoare_seq hoare_user_addMessage.
  unfold console_error. user_modify.
Qed.

Lemma hoare_user_send_catch u e :
  hoare (user_is u) (send_catch e) (user_is u) (user_is u).
Proof.
  unfold send_catch.
  hoare_seq hoare_user_hideTyping. hoare_seq hoare_user_addMessage.
  unfold console_error. user_modify.
Qed.

Lemma hoare_user_startSession_resume u ok data :
  hoare (user_is u) (startSession_resume ok data) (user_is u) (user_is u).
Proof.
  unfold startSession_resume.
  eapply hoare_try; [|intros e; apply hoare_user_startSession_catch].
  hoare_seq hoare_user_hideTyping.
  eapply hoare_bind; [user_modify|intros ?].
  apply hoare_if; [apply hoare_user_addMessage|].
  hoare_seq hoare_user_addMessage. unfold console_error. user_modify.
Qed.

Lemma hoare_user_send_resume u ok data :
  hoare (user_is u) (send_resume ok data) (user_is u) (user_is u).
Proof.
  unfold send_resume.
  eapply hoare_try; [|intros e; apply hoare_user_send_catch].
  hoare_seq hoare_user_hideTyping.
  apply hoare_if; [apply hoare_user_addMessage|].
  hoare_seq hoare_user_addMessage. unfold console_error. user_modify.
Qed.

Lemma hoare_user_send u :
  hoare (user_is u) send (user_is u) (user_is u).
Proof.
  unfold send.
  eapply hoare_bind; [apply hoare_read|intros raw].
  eapply hoare_bind; [apply hoare_read|intros user].
  apply hoare_if; [apply hoare_ret|].
  hoare_seq hoare_user_addMessage.
  eapply hoare_bind; [user_modify|intros ?].
  hoare_seq hoare_user_showTyping.
  unfold fetch_and_suspend. user_modify.
Qed.

Lemma user_run (m : M unit) p :
  hoare (user_is (currentUser p)) m
        (user_is (currentUser p)) (user_is (currentUser p)) ->
  currentUser (run m p) = currentUser p.
Proof.
  intros Hm. unfold run. specialize (Hm p eq_refl).
  by destruct (m p) as [a q|e q].
Qed.

(** [startSession] past its validation leaves the trimmed id in
    [currentUser]; a rejected call leaves [currentUser] alone. *)
Lemma startSession_user p :
  currentUser (run startSession p) =
  if JsString.is_empty (JsString.trim (userInput p))
  then currentUser p else JsString.trim (userInput p).
Proof.
  unfold run, startSession, bind, read, alert, modify.
  destruct (JsString.is_empty (JsString.trim (userInput p))); [done|].
  pose proof (hoare_user_showTyping (JsString.trim (userInput p))
                (fun _ => False)
                (set_currentUser (JsString.trim (userInput p)) p) eq_refl) as H.
  destruct (showTyping _) as [a q|e q]; [|done].
  unfold fetch_and_suspend, modify. exact H.
Qed.

(** ** What the handlers compute *)

Lemma showTyping_eq p : showTyping p = Done tt (with_indicator p).
Proof.
  unfold with_indicator. destruct (typingEl p) as [el|] eqn:Hslot.
  - by apply (showTyping_shown p el).
  - by apply showTyping_hidden.
Qed.

Lemma messages_with_indicator p :
  messages (chat (with_indicator p)) = messages (chat p).
Proof.
  unfold with_indicator. destruct (typingEl p); [done|]. simpl.
  rewrite messages_app. simpl. by rewrite app_nil_r.
Qed.

(** [startSession()] with a user id: to the [await]. *)
Lemma startSession_valid p :
  JsString.is_empty (JsString.trim (userInput p)) = false ->
  run startSession p =
  set_pending (<[next_rid p := (StartSession, AwaitFetch)]> (pending p))
    (set_next_rid (S (next_rid p))
       (emit (Fetch (next_rid p) (start_request p))
          (with_indicator (set_currentUser (JsString.trim (userInput p)) p)))).
Proof.
  intros Hid. unfold run, startSession, bind, read, modify. rewrite Hid.
  rewrite showTyping_eq. unfold fetch_and_suspend, modify, with_indicator.
  simpl. by destruct (typingEl p).
Qed.

(** [startSession()] without a user id. *)
Lemma startSession_invalid p :
  JsString.is_empty (JsString.trim (userInput p)) = true ->
  run startSession p = emit (Alert (js "Enter your name")) p.
Proof.
  intros Hid. unfold run, startSession, bind, read, alert, modify.
  by rewrite Hid.
Qed.

(** [send()] with a text and a session: to the [await]. *)
Lemma send_valid p :
  JsString.is_empty (JsString.trim (msgInput p)) = false ->
  JsString.is_empty (currentUser p) = false ->
  run send p =
  let sent :=
    set_msgInput []
      (set_chat (chat p ++ [message_row (next_uid p) (js "user")
                              (renderText_str (JsString.trim (msgInput p)))])
         (set_next_uid (S (S (next_uid p))) p)) in
  set_pending (<[next_rid p := (Send, AwaitFetch)]> (pending p))
    (set_next_rid (S (next_rid p))
       (emit (Fetch (next_rid p) (chat_request p)) (with_indicator sent))).
Proof.
  intros Htext Huser. unfold run, send, bind, read, modify.
  rewrite Htext, Huser. simpl. rewrite addMessage_string.
  rewrite showTyping_eq. unfold fetch_and_suspend, modify, with_indicator.
  simpl. by destruct (typingEl p).
Qed.

(** [send()] without a text or without a session. *)
Lemma send_invalid p :
  JsString.is_empty (JsString.trim (msgInput p)) = true \/
  JsString.is_empty (currentUser p) = true ->
  send p = Done tt p.
Proof.
  intros H. unfold send, bind, read, ret.
  destruct H as [-> | ->]; [done|]. by rewrite orb_true_r.
Qed.

Lemma startSession_catch_eq e p :
  consistent p ->
  startSession_catch e p =
  Done tt (caught (js "Failed to start session. Please try again.") e p).
Proof.
  intros Hc. unfold startSession_catch, bind.
  rewrite (hideTyping_consistent p Hc). by rewrite addMessage_string.
Qed.

Lemma send_catch_eq e p :
  consistent p ->
  send_catch e p = Done tt (caught (js "Network error. Please try again.") e p).
Proof.
  intros Hc. unfold send_catch, bind.
  rewrite (hideTyping_consistent p Hc). by rewrite addMessage_string.
Qed.

(** The state of the log and of the slot does not depend on the
    bookkeeping of requests. *)
Lemma consistent_suspended p m n e :
  consistent p -> consistent (set_pending m (set_next_rid n (emit e p))).
Proof. by apply consistent_ext. Qed.

(** Projections of updated pages, without unfolding anything else. *)
Ltac fields :=
  cbn [API_BASE chat userInput msgInput currentUser typingEl next_uid
       next_rid pending effects set_chat set_userInput set_msgInput
       set_currentUser set_typingEl set_next_uid set_next_rid set_pending
       emit].

Ltac by_slot p := unfold with_indicator; destruct (typingEl p); reflexivity.

Lemma userInput_with_indicator p : userInput (with_indicator p) = userInput p.
Proof. by_slot p. Qed.
Lemma msgInput_with_indicator p : msgInput (with_indicator p) = msgInput p.
Proof. by_slot p. Qed.
Lemma currentUser_with_indicator p :
  currentUser (with_indicator p) = currentUser p.
Proof. by_slot p. Qed.
Lemma effects_with_indicator p : effects (with_indicator p) = effects p.
Proof. by_slot p. Qed.
Lemma API_BASE_with_indicator p : API_BASE (with_indicator p) = API_BASE p.
Proof. by_slot p. Qed.

Lemma steps_cons p ev evs : steps p (ev :: evs) = steps (step p ev) evs.
Proof. reflexivity. Qed.

(** ** Settlements *)

Lemma step_FetchRejected p rid h :
  pending p !! rid = Some (h, AwaitFetch) ->
  step p (FetchRejected rid) =
  run (catch_of h NetworkError) (set_pending (delete rid (pending p)) p).
Proof. intros H. cbn [step]. by rewrite H. Qed.

Lemma step_FetchResolved p rid h ok :
  pending p !! rid = Some (h, AwaitFetch) ->
  step p (FetchResolved rid ok) =
  set_pending (<[rid := (h, AwaitJson ok)]> (pending p)) p.
Proof. intros H. cbn [step]. by rewrite H. Qed.

Lemma step_JsonRejected p rid h ok :
  pending p !! rid = Some (h, AwaitJson ok) ->
  step p (JsonRejected rid) =
  run (catch_of h SyntaxError) (set_pending (delete rid (pending p)) p).
Proof. intros H. cbn [step]. by rewrite H. Qed.

Lemma step_JsonResolved p rid h ok data :
  pending p !! rid = Some (h, AwaitJson ok) ->
  step p (JsonResolved rid data) =
  run (resume_of h ok data) (set_pending (delete rid (pending p)) p).
Proof. intros H. cbn [step]. by rewrite H. Qed.

Lemma catch_of_eq h e p :
  consistent p -> run (catch_of h e) p = caught (catch_text h) e p.
Proof.
  intros Hc. unfold run. destruct h; simpl.
  - by rewrite startSession_catch_eq.
  - by rewrite send_catch_eq.
Qed.

(** A failing request, delivered to the call that awaits it. *)
Lemma failure_settles p rid h f :
  consistent p ->
  pending p !! rid = Some (h, AwaitFetch) ->
  steps p (failure_events rid f) =
  caught (catch_text h) (failure_error f)
    (set_pending (delete rid (pending p)) p).
Proof.
  intros Hc Hp. destruct f as [|ok]; unfold steps; cbn [failure_events fold_left].
  - rewrite (step_FetchRejected p rid h Hp).
    by rewrite catch_of_eq; [|apply consistent_set_pending].
  - rewrite (step_FetchResolved p rid h ok Hp).
    erewrite step_JsonRejected;
      [|cbn [pending set_pending]; apply lookup_insert_eq].
    rewrite catch_of_eq; [|by do 2 apply consistent_set_pending].
    cbn [pending set_pending]. by rewrite delete_insert_eq.
Qed.

(** ** Prefixes and occurrences *)

Section Strings.
Import JsString.
Implicit Types (s d r a pat : jsstring) (c : N).

Lemma strip_prefix_app d r : strip_prefix d (d ++ r) = Some r.
Proof.
  induction d as [|x d IH]; simpl; [done|]. by rewrite N.eqb_refl.
Qed.

Lemma strip_prefix_Some d s r : strip_prefix d s = Some r -> s = d ++ r.
Proof.
  revert s. induction d as [|x d IH]; intros s; simpl.
  - by intros [= ->].
  - destruct s as [|y s]; [done|].
    destruct (N.eqb_spec x y) as [->|]; [|done].
    intros H. by rewrite (IH _ H).
Qed.

Lemma starts_with_app pat r : starts_with pat (pat ++ r) = true.
Proof. unfold starts_with. by rewrite strip_prefix_app. Qed.

(** A prefix test that fits inside [a] does not look beyond it. *)
Lemma starts_with_fresh pat a c s :
  c ∉ tail pat -> a <> [] ->
  starts_with pat (a ++ c :: s) = starts_with pat a.
Proof.
  unfold starts_with. destruct pat as [|x pat]; [done|].
  destruct a as [|y a]; [done|]. intros Hc _. simpl in *.
  destruct (x =? y); [|done].
  revert a. induction pat as [|z pat IH]; intros a; simpl; [done|].
  destruct a as [|y' a]; simpl.
  - destruct (N.eqb_spec z c) as [->|]; [|done].
    exfalso. apply Hc. by left.
  - destruct (z =? y'); [|done]. apply IH.
    intros H. apply Hc. by right.
Qed.

Lemma count_sub_cons pat c s :
  count_sub pat (c :: s) =
  ((if starts_with pat (c :: s) then 1 else 0) + count_sub pat s)%nat.
Proof. reflexivity. Qed.

(** Occurrences do not straddle a unit that the pattern has only at its
    head, if at all. *)
Lemma count_sub_fresh pat a c s :
  c ∉ tail pat ->
  count_sub pat (a ++ c :: s) = (count_sub pat a + count_sub pat (c :: s))%nat.
Proof.
  intros Hc. induction a as [|y a IH]; [done|].
  change ((y :: a) ++ c :: s) with (y :: (a ++ c :: s)).
  rewrite (count_sub_cons pat y (a ++ c :: s)), (count_sub_cons pat y a), IH.
  change (y :: a ++ c :: s) with ((y :: a) ++ c :: s).
  rewrite (starts_with_fresh pat (y :: a) c s Hc); [lia|done].
Qed.

End Strings.

Lemma count_sub_inert pat t a s :
  inert pat t ->
  JsString.count_sub pat (a ++ t ++ s)
  = (JsString.count_sub pat a + JsString.count_sub pat s)%nat.
Proof.
  intros [Hh Hs]. destruct t as [|c t]; [done|].
  change (a ++ (c :: t) ++ s) with (a ++ c :: (t ++ s)).
  rewrite (count_sub_fresh pat a c _ Hh).
  change (c :: t ++ s) with ((c :: t) ++ s). by rewrite Hs.
Qed.

(** ** The two shapes of replacement *)

Section Replacement.
Import JsString RegExp.
Implicit Types (s d r g a pat rep opn cls : jsstring) (c : N).

Lemma lazy_dots_sound d s g r :
  lazy_dots d s = Some (g, r) ->
  s = g ++ d ++ r /\ g <> [] /\
  forallb (fun c => negb (line_terminator c)) g = true.
Proof.
  revert g r. induction s as [|c s IH]; intros g r; simpl; [done|].
  destruct (line_terminator c) eqn:L; [done|].
  destruct (strip_prefix d s) as [r'|] eqn:E.
  - intros [= <- <-]. rewrite (strip_prefix_Some _ _ _ E). simpl.
    by rewrite L.
  - destruct (lazy_dots d s) as [[g' r'']|]; [|done].
    intros [= <- <-]. destruct (IH g' r'' eq_refl) as (-> & _ & Hg).
    simpl. by rewrite L, Hg.
Qed.

Lemma match_here_sound d s g r :
  match_here d s = Some (g, r) -> s = d ++ g ++ d ++ r /\ g <> [].
Proof.
  unfold match_here. destruct (strip_prefix d s) as [s1|] eqn:E; [|done].
  intros H. apply strip_prefix_Some in E as ->.
  by destruct (lazy_dots_sound _ _ _ _ H) as (-> & ? & _).
Qed.

Lemma match_here_shorter d s g r :
  match_here d s = Some (g, r) -> (length r < length s)%nat.
Proof.
  intros [-> Hg]%match_here_sound. rewrite !length_app.
  destruct g; [done|]. simpl. lia.
Qed.

Lemma match_here_nil d : match_here d [] = None.
Proof. unfold match_here. by destruct d. Qed.

Lemma replace_emph_fuel_enough d opn cls n m s :
  (length s <= n)%nat -> (length s <= m)%nat ->
  replace_emph_fuel n d opn cls s = replace_emph_fuel m d opn cls s.
Proof.
  revert m s. induction n as [|n IH]; intros m s Hn Hm.
  - destruct s; [|simpl in Hn; lia].
    destruct m; simpl; [done|]. by rewrite match_here_nil.
  - destruct m as [|m].
    + destruct s; [|simpl in Hm; lia]. simpl. by rewrite match_here_nil.
    + simpl. destruct (match_here d s) as [[g r]|] eqn:E.
      * apply match_here_shorter in E. do 3 f_equal. apply IH; lia.
      * destruct s as [|c s]; [done|]. simpl in *. f_equal. apply IH; lia.
Qed.

(** The scan, one step at a time. *)
Lemma replace_emph_eq d opn cls s :
  replace_emph d opn cls s =
  match match_here d s with
  | Some (g, r) => opn ++ g ++ cls ++ replace_emph d opn cls r
  | None =>
      match s with
      | [] => []
      | c :: s' => c :: replace_emph d opn cls s'
      end
  end.
Proof.
  unfold replace_emph. destruct s as [|c s].
  - simpl. by rewrite match_here_nil.
  - cbn [length replace_emph_fuel].
    destruct (match_here d (c :: s)) as [[g r]|] eqn:E; [|done].
    apply match_here_shorter in E. simpl in E. do 3 f_equal.
    apply replace_emph_fuel_enough; lia.
Qed.

Lemma strip_prefix_shorter pat s r :
  pat <> [] -> strip_prefix pat s = Some r -> (length r < length s)%nat.
Proof.
  intros Hp ->%strip_prefix_Some. rewrite length_app.
  destruct pat; [done|]. simpl. lia.
Qed.

Lemma replace_lit_fuel_enough pat rep n m s :
  pat <> [] -> (length s <= n)%nat -> (length s <= m)%nat ->
  replace_lit_fuel n pat rep s = replace_lit_fuel m pat rep s.
Proof.
  intros Hp. revert m s. induction n as [|n IH]; intros m s Hn Hm.
  - destruct s; [|simpl in Hn; lia].
    destruct m; simpl; [done|]. by destruct pat.
  - destruct m as [|m].
    + destruct s; [|simpl in Hm; lia]. simpl. by destruct pat.
    + simpl. destruct (strip_prefix pat s) as [r|] eqn:E.
      * apply strip_prefix_shorter in E; [|done]. f_equal. apply IH; lia.
      * destruct s as [|c s]; [done|]. simpl in *. f_equal. apply IH; lia.
Qed.

Lemma replace_lit_eq pat rep s :
  pat <> [] ->
  replace_lit pat rep s =
  match strip_prefix pat s with
  | Some r => rep ++ replace_lit pat rep r
  | None =>
      match s with
      | [] => []
      | c :: s' => c :: replace_lit pat rep s'
      end
  end.
Proof.
  intros Hp. unfold replace_lit. destruct s as [|c s].
  - simpl. by destruct pat.
  - cbn [length replace_lit_fuel].
    destruct (strip_prefix pat (c :: s)) as [r|] eqn:E; [|done].
    apply strip_prefix_shorter in E; [|done]. simpl in E. f_equal.
    apply replace_lit_fuel_enough; [done|lia..].
Qed.

End Replacement.

(** ** Replacement and occurrences *)

Section Counting.
Import JsString RegExp.
Implicit Types (s d r g a pat rep opn cls : jsstring) (c : N).

(** Emphasis neither destroys nor creates an occurrence of a pattern that
    the delimiter and the two tags are inert for. *)
Lemma count_sub_replace_emph pat d opn cls :
  inert pat d -> inert pat opn -> inert pat cls ->
  forall s a,
    count_sub pat (a ++ replace_emph d opn cls s) = count_sub pat (a ++ s).
Proof.
  intros Hd Ho Hc s.
  remember (length s) as n eqn:Hn. revert s Hn.
  induction n as [n IH] using lt_wf_ind. intros s -> a.
  rewrite replace_emph_eq.
  destruct (match_here d s) as [[g r]|] eqn:E.
  - pose proof (match_here_shorter _ _ _ _ E) as Hlt.
    apply match_here_sound in E as [-> _].
    rewrite (count_sub_inert pat opn a _ Ho), (count_sub_inert pat cls g _ Hc).
    rewrite (count_sub_inert pat d a _ Hd), (count_sub_inert pat d g _ Hd).
    pose proof (IH (length r) Hlt r eq_refl []) as Hr. simpl in Hr.
    by rewrite Hr.
  - destruct s as [|c s]; [done|].
    rewrite !(cons_middle c a), !app_assoc.
    apply (IH (length s)); [simpl; lia|done].
Qed.

Lemma count_sub_replace_lit pat lit rep :
  inert pat lit -> inert pat rep ->
  forall s a,
    count_sub pat (a ++ replace_lit lit rep s) = count_sub pat (a ++ s).
Proof.
  intros Hl Hr s.
  assert (lit <> []) as Hne by (destruct Hl as [Hh _]; by destruct lit).
  remember (length s) as n eqn:Hn. revert s Hn.
  induction n as [n IH] using lt_wf_ind. intros s -> a.
  rewrite (replace_lit_eq lit rep s Hne).
  destruct (strip_prefix lit s) as [r|] eqn:E.
  - pose proof (strip_prefix_shorter _ _ _ Hne E) as Hlt.
    apply strip_prefix_Some in E as ->.
    rewrite (count_sub_inert pat rep a _ Hr), (count_sub_inert pat lit a _ Hl).
    pose proof (IH (length r) Hlt r eq_refl []) as H. simpl in H.
    by rewrite H.
  - destruct s as [|c s]; [done|].
    rewrite !(cons_middle c a), !app_assoc.
    apply (IH (length s)); [simpl; lia|done].
Qed.

(** Without an occurrence of the literal nothing is replaced. *)
Lemma replace_lit_id lit rep s :
  lit <> [] -> count_sub lit s = 0%nat -> replace_lit lit rep s = s.
Proof.
  intros Hne. induction s as [|c s IH]; intros Hs.
  - rewrite replace_lit_eq by done. by destruct lit.
  - rewrite count_sub_cons in Hs. rewrite replace_lit_eq by done.
    unfold starts_with in Hs.
    destruct (strip_prefix lit (c :: s)); [simpl in Hs; lia|].
    rewrite IH; [done|]. simpl in Hs. lia.
Qed.

Lemma count_sub_absent x pat s :
  forallb (fun c => negb (x =? c)) s = true -> count_sub (x :: pat) s = 0%nat.
Proof.
  induction s as [|c s IH]; [done|]. cbn [forallb].
  intros [Hc Hs]%andb_true_iff. rewrite count_sub_cons, (IH Hs).
  unfold starts_with. simpl. by destruct (x =? c).
Qed.

End Counting.

(** ** The tags of [renderText] and the paragraph tags *)

Ltac inert_tac :=
  split; [cbn; compute_done|intros s; reflexivity].

Lemma inert_p_star2 : inert (js "<p>") [STAR; STAR]. Proof. inert_tac. Qed.
Lemma inert_p_star : inert (js "<p>") [STAR]. Proof. inert_tac. Qed.
Lemma inert_p_strong : inert (js "<p>") (js "<strong>"). Proof. inert_tac. Qed.
Lemma inert_p_strong' : inert (js "<p>") (js "</strong>"). Proof. inert_tac. Qed.
Lemma inert_p_em : inert (js "<p>") (js "<em>"). Proof. inert_tac. Qed.
Lemma inert_p_em' : inert (js "<p>") (js "</em>"). Proof. inert_tac. Qed.
Lemma inert_p_item : inert (js "<p>") (LF :: js "-"). Proof. inert_tac. Qed.
Lemma inert_p_bullet : inert (js "<p>") (js "<br>" ++ [BULLET]).
Proof. inert_tac. Qed.

Lemma inert_q_star2 : inert (js "</p>") [STAR; STAR]. Proof. inert_tac. Qed.
Lemma inert_q_star : inert (js "</p>") [STAR]. Proof. inert_tac. Qed.
Lemma inert_q_strong : inert (js "</p>") (js "<strong>"). Proof. inert_tac. Qed.
Lemma inert_q_strong' : inert (js "</p>") (js "</strong>"). Proof. inert_tac. Qed.
Lemma inert_q_em : inert (js "</p>") (js "<em>"). Proof. inert_tac. Qed.
Lemma inert_q_em' : inert (js "</p>") (js "</em>"). Proof. inert_tac. Qed.
Lemma inert_q_item : inert (js "</p>") (LF :: js "-"). Proof. inert_tac. Qed.
Lemma inert_q_bullet : inert (js "</p>") (js "<br>" ++ [BULLET]).
Proof. inert_tac. Qed.

Lemma inert_nn_star2 : inert [LF; LF] [STAR; STAR]. Proof. inert_tac. Qed.
Lemma inert_nn_star : inert [LF; LF] [STAR]. Proof. inert_tac. Qed.
Lemma inert_nn_strong : inert [LF; LF] (js "<strong>"). Proof. inert_tac. Qed.
Lemma inert_nn_strong' : inert [LF; LF] (js "</strong>"). Proof. inert_tac. Qed.
Lemma inert_nn_em : inert [LF; LF] (js "<em>"). Proof. inert_tac. Qed.
Lemma inert_nn_em' : inert [LF; LF] (js "</em>"). Proof. inert_tac. Qed.

Lemma count_sub_emphasis pat s :
  inert pat [STAR; STAR] -> inert pat [STAR] ->
  inert pat (js "<strong>") -> inert pat (js "</strong>") ->
  inert pat (js "<em>") -> inert pat (js "</em>") ->
  JsString.count_sub pat (italic (bold s)) = JsString.count_sub pat s.
Proof.
  intros H1 H2 H3 H4 H5 H6. unfold italic, bold.
  rewrite <- (app_nil_l (RegExp.replace_emph [STAR] _ _ _)).
  rewrite count_sub_replace_emph by done. simpl.
  rewrite <- (app_nil_l (RegExp.replace_emph [STAR; STAR] _ _ _)).
  by rewrite count_sub_replace_emph.
Qed.

(** Without a blank line, [format] neither removes nor adds a paragraph
    tag. *)
Lemma count_sub_format pat s :
  JsString.count_sub [LF; LF] s = 0%nat ->
  inert pat [STAR; STAR] -> inert pat [STAR] ->
  inert pat (js "<strong>") -> inert pat (js "</strong>") ->
  inert pat (js "<em>") -> inert pat (js "</em>") ->
  inert pat (LF :: js "-") -> inert pat (js "<br>" ++ [BULLET]) ->
  JsString.count_sub pat (format s) = JsString.count_sub pat s.
Proof.
  intros Hnn H1 H2 H3 H4 H5 H6 H7 H8. unfold format, paragraphs, bullets.
  rewrite (replace_lit_id [LF; LF]); [|done|].
  - rewrite <- (app_nil_l (RegExp.replace_lit _ _ _)).
    rewrite count_sub_replace_lit by done. simpl.
    by apply count_sub_emphasis.
  - rewrite count_sub_emphasis; [done|..].
    + apply inert_nn_star2.
    + apply inert_nn_star.
    + apply inert_nn_strong.
    + apply inert_nn_strong'.
    + apply inert_nn_em.
    + apply inert_nn_em'.
Qed.

(** ** Emphasis on plain text *)

Section Emphasis.
Import JsString RegExp.
Implicit Types (s d r g a u opn cls : jsstring) (c : N).

Lemma plain_no_star s : plain s -> forallb (fun c => negb (STAR =? c)) s = true.
Proof.
  unfold plain. induction s as [|c s IH]; [done|]. cbn [forallb].
  intros [[Hc _]%andb_true_iff Hs]%andb_true_iff. by rewrite Hc, IH.
Qed.

Lemma plain_no_LF s : plain s -> forallb (fun c => negb (LF =? c)) s = true.
Proof.
  unfold plain. induction s as [|c s IH]; [done|]. cbn [forallb].
  intros [[_ Hc]%andb_true_iff Hs]%andb_true_iff. rewrite IH by done.
  unfold line_terminator in Hc. rewrite (N.eqb_sym LF c). unfold LF.
  destruct (c =? 10); [done|done].
Qed.

Lemma match_here_other d c s :
  (STAR =? c) = false -> match_here (STAR :: d) (c :: s) = None.
Proof. intros H. unfold match_here. cbn [strip_prefix]. by rewrite H. Qed.

(** The scan copies what has no asterisk. *)
Lemma replace_emph_skip d opn cls u s :
  forallb (fun c => negb (STAR =? c)) u = true ->
  replace_emph (STAR :: d) opn cls (u ++ s)
  = u ++ replace_emph (STAR :: d) opn cls s.
Proof.
  induction u as [|c u IH]; [done|]. cbn [forallb].
  intros [Hc Hu]%andb_true_iff. apply negb_true_iff in Hc.
  change ((c :: u) ++ s) with (c :: (u ++ s)).
  rewrite replace_emph_eq, (match_here_other d c _ Hc), (IH Hu). done.
Qed.

(** The lazy group stops at the first closing delimiter. *)
Lemma lazy_dots_plain d g r :
  plain g -> g <> [] ->
  lazy_dots (STAR :: d) (g ++ (STAR :: d) ++ r) = Some (g, r).
Proof.
  unfold plain. induction g as [|c g IH]; [done|]. cbn [forallb].
  intros [[_ Hc]%andb_true_iff Hg]%andb_true_iff _.
  apply negb_true_iff in Hc.
  change ((c :: g) ++ (STAR :: d) ++ r) with (c :: (g ++ (STAR :: d) ++ r)).
  cbn [lazy_dots]. rewrite Hc. destruct g as [|c' g].
  - change ([] ++ (STAR :: d) ++ r) with ((STAR :: d) ++ r).
    by rewrite strip_prefix_app.
  - rewrite (IH Hg) by done. cbn [forallb] in Hg.
    apply andb_true_iff in Hg as [[Hc' _]%andb_true_iff _].
    apply negb_true_iff in Hc'. cbn [app strip_prefix]. by rewrite Hc'.
Qed.

(** One emphasised group: the replacement, and the scan goes on behind
    the closing delimiter. *)
Lemma replace_emph_wrap d opn cls g r :
  plain g -> g <> [] ->
  replace_emph (STAR :: d) opn cls ((STAR :: d) ++ g ++ (STAR :: d) ++ r)
  = opn ++ g ++ cls ++ replace_emph (STAR :: d) opn cls r.
Proof.
  intros Hg Hne. rewrite replace_emph_eq. unfold match_here.
  by rewrite strip_prefix_app, lazy_dots_plain.
Qed.

End Emphasis.

(** A literal replacement copies what cannot start a match. *)
Lemma replace_lit_skip x pat rep u s :
  forallb (fun c => negb (x =? c)) u = true ->
  RegExp.replace_lit (x :: pat) rep (u ++ s)
  = u ++ RegExp.replace_lit (x :: pat) rep s.
Proof.
  induction u as [|c u IH]; [done|]. cbn [forallb].
  intros [Hc Hu]%andb_true_iff. apply negb_true_iff in Hc.
  change ((c :: u) ++ s) with (c :: (u ++ s)).
  rewrite replace_lit_eq by done. cbn [JsString.strip_prefix].
  by rewrite Hc, (IH Hu).
Qed.

(** Text without an asterisk is left as it is by bold and italic. *)
Lemma emphasis_id s :
  forallb (fun c => negb (STAR =? c)) s = true -> italic (bold s) = s.
Proof.
  intros Hs. unfold italic, bold.
  rewrite <- (app_nil_r s) at 1.
  rewrite (replace_emph_skip [STAR] _ _ s []) by done.
  rewrite app_nil_r. rewrite <- (app_nil_r s) at 1.
  rewrite (replace_emph_skip [] _ _ s []) by done.
  by rewrite app_nil_r.
Qed.

(** A blank line between two plain texts becomes a paragraph boundary. *)
Lemma format_blank_line a b :
  plain a -> plain b ->
  format (a ++ [LF; LF] ++ b) = a ++ js "</p><p>" ++ b.
Proof.
  intros Ha Hb. unfold format.
  rewrite emphasis_id
    by (rewrite !forallb_app, (plain_no_star a Ha), (plain_no_star b Hb); done).
  assert (paragraphs (a ++ [LF; LF] ++ b) = a ++ js "</p><p>" ++ b) as ->.
  { unfold paragraphs. pose proof (plain_no_LF a Ha) as HaLF.
    clear Ha. induction a as [|c a IH].
    - change ([] ++ [LF; LF] ++ b) with ([LF; LF] ++ b).
      rewrite replace_lit_eq by done.
      rewrite strip_prefix_app.
      rewrite (replace_lit_id [LF; LF]);
        [done|done|by apply count_sub_absent, plain_no_LF].
    - cbn [forallb] in HaLF. apply andb_true_iff in HaLF as [Hc Ha].
      apply negb_true_iff in Hc.
      change ((c :: a) ++ [LF; LF] ++ b) with (c :: (a ++ [LF; LF] ++ b)).
      rewrite replace_lit_eq by done.
      cbn [JsString.strip_prefix]. rewrite Hc. by rewrite (IH Ha). }
  unfold bullets. apply replace_lit_id; [done|].
  apply count_sub_absent.
  by rewrite !forallb_app, (plain_no_LF a Ha), (plain_no_LF b Hb).
Qed.

(** * The claims *)

(** ** C1: a failed start *)

(** C1 (as amended). For every call of [startSession] with a non-empty
    trimmed user id whose request fails (the network call is rejected, or
    the body is not JSON): the typing indicator is hidden and none stays
    attached, the log keeps its messages and gains the generic failure
    message, [currentUser] holds the submitted trimmed id (it was assigned
    before the request left), and pressing start again sends a new
    request. *)
Theorem startSession_failure p f :
  reachable p ->
  JsString.is_empty (JsString.trim (userInput p)) = false ->
  let q := steps p (ClickStart :: failure_events (next_rid p) f) in
  typingEl q = None /\
  indicators (chat q) = [] /\
  shown <$> chat q =
    (shown <$> messages (chat p))
    ++ [(js "msg assistant-msg",
         [renderText_str (js "Failed to start session. Please try again.")])] /\
  currentUser q = JsString.trim (userInput p) /\
  pending (step q ClickStart) !! next_rid q = Some (StartSession, AwaitFetch).
Proof.
  intros Hr Hid.
  assert (consistent (step p ClickStart)) as Hc
    by apply step_consistent, reachable_consistent, Hr.
  assert (pending (step p ClickStart) !! next_rid p
          = Some (StartSession, AwaitFetch)) as Hp.
  { cbn [step]. rewrite (startSession_valid p Hid).
    fields. apply lookup_insert_eq. }
  pose proof (failure_settles _ _ _ f Hc Hp) as Hq.
  rewrite steps_cons, Hq. clear Hq Hp Hc.
  cbn [step]. rewrite (startSession_valid p Hid).
  cbv zeta. unfold caught. fields.
  split; [reflexivity|]. split; [|split; [|split]].
  - rewrite indicators_app, indicators_messages. reflexivity.
  - rewrite fmap_app, messages_with_indicator. reflexivity.
  - apply currentUser_with_indicator.
  - rewrite startSession_valid.
    + fields. apply lookup_insert_eq.
    + fields. by rewrite userInput_with_indicator.
Qed.

Lemma startSession_failure_witness :
  reachable (step (initial []) (TypeUserId (js "bob"))) /\
  currentUser (steps (step (initial []) (TypeUserId (js "bob")))
                 [ClickStart; FetchRejected 0%nat]) = js "bob".
Proof.
  split; [repeat constructor|].
  apply (startSession_failure (step (initial []) (TypeUserId (js "bob")))
           NetworkFails); [repeat constructor|reflexivity].
Defined.

(** C1 (as stated) fails: after a start from the idle page whose request
    is rejected, [currentUser] is not the empty string. *)
Lemma failed_start_keeps_user :
  ~ (forall p,
       reachable p -> currentUser p = [] ->
       JsString.is_empty (JsString.trim (userInput p)) = false ->
       currentUser (steps p [ClickStart; FetchRejected (next_rid p)]) = []).
Proof.
  intros H.
  specialize (H (step (initial []) (TypeUserId (js " bob ")))).
  discriminate H; [repeat constructor|reflexivity|reflexivity].
Qed.

(** ** C2: who assigns [currentUser], and when *)

(** One turn of the event loop, seen from [currentUser]. *)
Lemma step_currentUser p ev :
  currentUser (step p ev) =
  match ev with
  | ClickStart =>
      if JsString.is_empty (JsString.trim (userInput p))
      then currentUser p
      else JsString.trim (userInput p)
  | _ => currentUser p
  end.
Proof.
  destruct ev as [s|s| | |key|rid|rid ok|rid|rid data]; cbn [step].
  - reflexivity.
  - reflexivity.
  - apply startSession_user.
  - apply user_run, hoare_user_send.
  - destruct (JsString.eqb key (js "Enter")); [|reflexivity].
    apply user_run, hoare_user_send.
  - destruct (pending p !! rid) as [[h st]|]; [|reflexivity].
    destruct st as [|ok]; [|reflexivity].
    apply (user_run _ (set_pending _ p)).
    destruct h; [apply hoare_user_startSession_catch|apply hoare_user_send_catch].
  - destruct (pending p !! rid) as [[h st]|]; [|reflexivity].
    destruct st as [|ok']; reflexivity.
  - destruct (pending p !! rid) as [[h st]|]; [|reflexivity].
    destruct st as [|ok]; [reflexivity|].
    apply (user_run _ (set_pending _ p)).
    destruct h; [apply hoare_user_startSession_catch|apply hoare_user_send_catch].
  - destruct (pending p !! rid) as [[h st]|]; [|reflexivity].
    destruct st as [|ok]; [reflexivity|].
    apply (user_run _ (set_pending _ p)).
    destruct h; [apply hoare_user_startSession_resume|apply hoare_user_send_resume].
Qed.

(** A run without a start leaves [currentUser] as it is. *)
Lemma currentUser_steps p evs :
  forallb (fun ev => negb (is_start ev)) evs = true ->
  currentUser (steps p evs) = currentUser p.
Proof.
  revert p. induction evs as [|ev evs IH]; intros p H; [reflexivity|].
  cbn [forallb] in H. apply andb_true_iff in H as [Hev Hevs].
  rewrite steps_cons, (IH _ Hevs), step_currentUser.
  by destruct ev.
Qed.

(** C2 (as amended). [currentUser] is assigned by [startSession] alone,
    at the moment its validation of the user id passes and before any
    response: every such call overwrites it with the trimmed id. No other
    turn of the event loop (an edit, [send], a settlement of either
    request, a rejected start) changes it, so a run without start clicks
    leaves it as it is; and it is never reset to the empty string. *)
Theorem currentUser_assigned_at_validation p ev evs :
  currentUser (step p ev) =
  match ev with
  | ClickStart =>
      if JsString.is_empty (JsString.trim (userInput p))
      then currentUser p
      else JsString.trim (userInput p)
  | _ => currentUser p
  end /\
  currentUser (steps p (List.filter (fun e => negb (is_start e)) evs))
  = currentUser p /\
  JsString.is_empty (currentUser (step p ev))
  = JsString.is_empty (currentUser p)
    && match ev with
       | ClickStart => JsString.is_empty (JsString.trim (userInput p))
       | _ => true
       end.
Proof.
  split; [apply step_currentUser|]. split.
  - apply currentUser_steps. apply forallb_forall.
    by intros e [_ He]%filter_In.
  - rewrite step_currentUser. destruct ev; try by rewrite andb_true_r.
    destruct (JsString.is_empty (JsString.trim (userInput p))) eqn:E.
    + by rewrite andb_true_r.
    + by rewrite E, andb_false_r.
Qed.

(** C2 (as stated) fails on both counts: a set [currentUser] is
    overwritten by the next start, and it is assigned by a click, while
    no response has been received. *)
Lemma currentUser_not_set_once :
  ~ (forall p ev, reachable p -> currentUser p <> [] ->
       currentUser (step p ev) = currentUser p)
  /\ ~ (forall p ev, reachable p -> currentUser (step p ev) <> currentUser p ->
          exists rid data, ev = JsonResolved rid data).
Proof.
  split.
  - intros H.
    specialize (H (steps (initial [])
                     [TypeUserId (js "ann"); ClickStart; FetchRejected 0%nat;
                      TypeUserId (js "bob")]) ClickStart).
    discriminate H; [apply reachable_steps; constructor|discriminate].
  - intros H.
    destruct (H (step (initial []) (TypeUserId (js "ann"))) ClickStart)
      as (rid & data & Hev); [repeat constructor|discriminate|discriminate].
Qed.

(** ** C3: the paragraph container *)

(** The paragraph tags of [renderText]'s result, for a text without a
    blank line: those of the text and the enclosing pair. *)
Lemma count_sub_renderText t :
  JsString.count_sub [LF; LF] t = 0%nat ->
  JsString.count_sub (js "<p>") (renderText_str t)
  = S (JsString.count_sub (js "<p>") t) /\
  JsString.count_sub (js "</p>") (renderText_str t)
  = S (JsString.count_sub (js "</p>") t).
Proof.
  intros Hnn. unfold renderText_str. split.
  - change (JsString.count_sub (js "<p>") (js "<p>" ++ ?s))
      with (S (JsString.count_sub (js "<p>") s)).
    change (js "</p>") with (60 :: js "/p>").
    rewrite (count_sub_fresh (js "<p>") (format t) 60) by compute_done.
    change (JsString.count_sub (js "<p>") (60 :: js "/p>")) with 0%nat.
    rewrite Nat.add_0_r. f_equal.
    apply count_sub_format; [done|..].
    + apply inert_p_star2.
    + apply inert_p_star.
    + apply inert_p_strong.
    + apply inert_p_strong'.
    + apply inert_p_em.
    + apply inert_p_em'.
    + apply inert_p_item.
    + apply inert_p_bullet.
  - change (JsString.count_sub (js "</p>") (js "<p>" ++ ?s))
      with (JsString.count_sub (js "</p>") s).
    change (format t ++ js "</p>") with (format t ++ 60 :: js "/p>").
    rewrite (count_sub_fresh (js "</p>") (format t) 60) by compute_done.
    change (JsString.count_sub (js "</p>") (60 :: js "/p>")) with 1%nat.
    rewrite Nat.add_1_r. f_equal.
    apply count_sub_format; [done|..].
    + apply inert_q_star2.
    + apply inert_q_star.
    + apply inert_q_strong.
    + apply inert_q_strong'.
    + apply inert_q_em.
    + apply inert_q_em'.
    + apply inert_q_item.
    + apply inert_q_bullet.
Qed.

(** C3 (as amended). For every string [t], [renderText(t)] begins with
    [<p>] and ends with [</p>]. When [t] holds no blank line (two
    consecutive newlines) and no paragraph tag of its own, these are the
    only paragraph tags of the result: exactly one [<p>] and exactly one
    [</p>]. A blank line is turned into a paragraph boundary inside the
    result: two plain texts around a blank line are rendered as two
    paragraph containers. *)
Theorem renderText_one_paragraph t :
  exists out,
    renderText (VString t) = inr out /\
    JsString.starts_with (js "<p>") out = true /\
    JsString.ends_with (js "</p>") out = true /\
    (JsString.count_sub [LF; LF] t = 0%nat ->
     JsString.count_sub (js "<p>") t = 0%nat ->
     JsString.count_sub (js "</p>") t = 0%nat ->
     JsString.count_sub (js "<p>") out = 1%nat /\
     JsString.count_sub (js "</p>") out = 1%nat) /\
    (forall a b, plain a -> plain b -> t = a ++ [LF; LF] ++ b ->
       out = js "<p>" ++ a ++ js "</p><p>" ++ b ++ js "</p>").
Proof.
  exists (renderText_str t).
  split; [apply renderText_string|]. split; [|split; [|split]].
  - apply starts_with_app.
  - unfold JsString.ends_with, renderText_str.
    rewrite !rev_app_distr, <- app_assoc. apply starts_with_app.
  - intros Hnn Hp Hq. destruct (count_sub_renderText t Hnn) as [H1 H2].
    by rewrite H1, H2, Hp, Hq.
  - intros a b Ha Hb ->. unfold renderText_str.
    rewrite (format_blank_line a b Ha Hb). by rewrite <- !app_assoc.
Qed.

Lemma renderText_one_paragraph_witness :
  (JsString.count_sub [LF; LF] (js "**a** *b*") = 0%nat /\
   JsString.count_sub (js "<p>") (js "**a** *b*") = 0%nat /\
   JsString.count_sub (js "</p>") (js "**a** *b*") = 0%nat /\
   exists out,
     renderText (VString (js "**a** *b*")) = inr out /\
     JsString.count_sub (js "<p>") out = 1%nat /\
     JsString.count_sub (js "</p>") out = 1%nat)
  /\ (plain (js "a") /\ plain (js "b") /\
      exists out,
        renderText (VString (js "a" ++ [LF; LF] ++ js "b")) = inr out /\
        out = js "<p>" ++ js "a" ++ js "</p><p>" ++ js "b" ++ js "</p>").
Proof.
  split.
  - split; [reflexivity|]. split; [reflexivity|]. split; [reflexivity|].
    destruct (renderText_one_paragraph (js "**a** *b*"))
      as (out & Hout & _ & _ & Hone & _).
    exists out. split; [exact Hout|]. apply Hone; reflexivity.
  - split; [reflexivity|]. split; [reflexivity|].
    destruct (renderText_one_paragraph (js "a" ++ [LF; LF] ++ js "b"))
      as (out & Hout & _ & _ & _ & Hsplit).
    exists out. split; [exact Hout|].
    apply (Hsplit (js "a") (js "b")); reflexivity.
Defined.

(** C3 (as stated) fails: a text with a blank line is rendered as two
    paragraph containers. *)
Lemma renderText_blank_line_splits :
  renderText (VString (js "a" ++ [LF; LF] ++ js "b"))
  = inr (js "<p>a</p><p>b</p>") /\
  JsString.count_sub (js "<p>") (js "<p>a</p><p>b</p>") = 2%nat /\
  ~ (forall t out, renderText (VString t) = inr out ->
       JsString.count_sub (js "<p>") out = 1%nat /\
       JsString.count_sub (js "</p>") out = 1%nat).
Proof.
  split; [reflexivity|]. split; [reflexivity|].
  intros H.
  destruct (H (js "a" ++ [LF; LF] ++ js "b") (js "<p>a</p><p>b</p>") eq_refl)
    as [H1 _].
  discriminate H1.
Qed.

(** ** C4: one indicator at most *)

(** C4. On every reachable page the log holds at most one typing
    indicator; [showTyping] with the slot taken returns the page as it
    is; and after [showTyping] a second [showTyping] changes nothing and
    the log holds exactly one indicator. *)
Theorem one_indicator p :
  reachable p ->
  (length (indicators (chat p)) <= 1)%nat /\
  match typingEl p with
  | Some _ => showTyping p = Done tt p
  | None => True
  end /\
  exists q,
    showTyping p = Done tt q /\ showTyping q = Done tt q /\
    length (indicators (chat q)) = 1%nat.
Proof.
  intros Hc%reachable_consistent. split; [|split].
  - rewrite (c_indicators p Hc). destruct (typingEl p); simpl; lia.
  - destruct (typingEl p) as [el|] eqn:Hslot; [|done].
    by apply (showTyping_shown p el).
  - exists (with_indicator p). split; [apply showTyping_eq|].
    pose proof (hoare_showTyping any_slot (fun _ => False) p
                  (proj1 (consistent_slot p) Hc)) as Hq.
    rewrite showTyping_eq in Hq. destruct Hq as [Hq _].
    assert (exists el, typingEl (with_indicator p) = Some el) as [el Hel].
    { unfold with_indicator. destruct (typingEl p) eqn:E; [by eauto|].
      fields. by eauto. }
    split; [by apply (showTyping_shown _ el)|].
    by rewrite (c_indicators _ Hq), Hel.
Qed.

Lemma one_indicator_witness :
  reachable (initial []) /\
  (length (indicators (chat (initial []))) <= 1)%nat.
Proof.
  split; [constructor|].
  apply (one_indicator (initial [])). constructor.
Defined.

(** ** C5: a successful start *)

(** After [hideTyping()] and [chat.innerHTML = ''] the log is empty and
    the slot is empty, whatever they were. *)
Lemma hide_then_clear p :
  exists q, hideTyping p = Done tt q /\
            set_chat [] q = set_chat [] (set_typingEl None p).
Proof.
  rewrite (hideTyping_eq p). eexists. split; [reflexivity|].
  destruct (typingEl p) as [el|] eqn:Hslot.
  - by destruct (attached el (chat p)).
  - destruct p. simpl in *. by subst.
Qed.

(** The success branch of [startSession]: an ok status and a body whose
    [message] is a non-empty string. *)
Lemma startSession_resume_message data m p :
  truthy data = true -> get_prop data (js "message") = VString m ->
  JsString.is_empty m = false ->
  run (startSession_resume true data) p =
  set_chat [message_row (next_uid p) (js "assistant") (renderText_str m)]
    (set_next_uid (S (S (next_uid p))) (set_typingEl None p)).
Proof.
  intros Hd Hm Hne. unfold run, startSession_resume, try_catch.
  destruct (hide_then_clear p) as (q & Hq & Hclear).
  unfold bind, modify. rewrite Hq, Hclear.
  rewrite Hd, Hm. cbn [truthy andb]. rewrite Hne. cbn [negb].
  by rewrite addMessage_string.
Qed.

(** C5. A [startSession] with a non-empty trimmed user id that receives
    an ok response with the body [{message:"Hi"}] leaves the slot empty
    and no indicator attached, [currentUser] equal to the submitted id,
    and a log of exactly one row: an assistant message with the markup
    of "Hi". *)
Theorem startSession_success p :
  JsString.is_empty (JsString.trim (userInput p)) = false ->
  let data := VObject [(js "message", VString (js "Hi"))] in
  let q := steps p [ClickStart; FetchResolved (next_rid p) true;
                    JsonResolved (next_rid p) data] in
  typingEl q = None /\
  indicators (chat q) = [] /\
  shown <$> chat q = [(js "msg assistant-msg", [js "<p>Hi</p>"])] /\
  currentUser q = JsString.trim (userInput p).
Proof.
  intros Hid data q. subst q.
  assert (pending (step p ClickStart) !! next_rid p
          = Some (StartSession, AwaitFetch)) as Hp.
  { cbn [step]. rewrite (startSession_valid p Hid).
    fields. apply lookup_insert_eq. }
  rewrite steps_cons, steps_cons.
  rewrite (step_FetchResolved _ _ _ true Hp).
  unfold steps. cbn [fold_left].
  erewrite step_JsonResolved; [|fields; apply lookup_insert_eq].
  cbn [resume_of].
  rewrite (startSession_resume_message data (js "Hi")); [|done..].
  fields. split; [done|]. split; [done|]. split; [done|].
  cbn [step]. rewrite (startSession_valid p Hid). fields.
  apply currentUser_with_indicator.
Qed.

Lemma startSession_success_witness :
  JsString.is_empty
    (JsString.trim (userInput (step (initial []) (TypeUserId (js "bob"))))) = false
  /\ typingEl
       (steps (step (initial []) (TypeUserId (js "bob")))
          [ClickStart;
           FetchResolved (next_rid (step (initial []) (TypeUserId (js "bob")))) true;
           JsonResolved (next_rid (step (initial []) (TypeUserId (js "bob"))))
             (VObject [(js "message", VString (js "Hi"))])]) = None.
Proof.
  split; [reflexivity|].
  exact (proj1 (startSession_success
                  (step (initial []) (TypeUserId (js "bob"))) eq_refl)).
Defined.

(** ** C6: [send] without a text or without a session *)

(** C6. When the trimmed text is empty or [currentUser] is empty, [send]
    returns at once: the page is the same afterwards, so no request has
    left, and the log, the input field and the indicator slot are
    untouched. This holds for the button and for the Enter key. *)
Theorem send_without_text_or_session p :
  JsString.is_empty (JsString.trim (msgInput p)) = true \/
  JsString.is_empty (currentUser p) = true ->
  send p = Done tt p /\
  step p ClickSend = p /\
  step p (KeyDown (js "Enter")) = p.
Proof.
  intros H. pose proof (send_invalid p H) as Hs.
  split; [done|]. split; cbn [step]; unfold run; by rewrite Hs.
Qed.

Lemma send_without_text_or_session_witness :
  (JsString.is_empty (JsString.trim (msgInput (initial []))) = true \/
   JsString.is_empty (currentUser (initial [])) = true)
  /\ step (initial []) ClickSend = initial [].
Proof.
  split; [by left|].
  apply (send_without_text_or_session (initial [])). by left.
Defined.

(** ** C7: a failed chat request *)

(** C7. For every [send] with a non-empty trimmed text and a session
    whose request fails (the network call is rejected, or the body is not
    JSON): the error is caught (it is logged, and no rejection escapes
    the handler), the slot is empty and no indicator stays attached, and
    the log keeps its messages and gains the user's message followed by
    the generic network-error message. *)
Theorem send_failure p f :
  reachable p ->
  JsString.is_empty (JsString.trim (msgInput p)) = false ->
  JsString.is_empty (currentUser p) = false ->
  let q := steps p (ClickSend :: failure_events (next_rid p) f) in
  typingEl q = None /\
  indicators (chat q) = [] /\
  shown <$> chat q =
    (shown <$> messages (chat p))
    ++ [(js "msg user-msg", [renderText_str (JsString.trim (msgInput p))]);
        (js "msg assistant-msg",
         [renderText_str (js "Network error. Please try again.")])] /\
  effects q =
    effects p ++ [Fetch (next_rid p) (chat_request p);
                  ConsoleError [LogError (failure_error f)]].
Proof.
  intros Hr Htext Huser.
  assert (consistent (step p ClickSend)) as Hc
    by apply step_consistent, reachable_consistent, Hr.
  assert (pending (step p ClickSend) !! next_rid p = Some (Send, AwaitFetch))
    as Hp.
  { cbn [step]. rewrite (send_valid p Htext Huser).
    cbv zeta. fields. apply lookup_insert_eq. }
  pose proof (failure_settles _ _ _ f Hc Hp) as Hq.
  rewrite steps_cons, Hq. clear Hq Hp Hc.
  cbn [step]. rewrite (send_valid p Htext Huser).
  cbv zeta. unfold caught. fields.
  split; [reflexivity|]. split; [|split].
  - rewrite indicators_app, indicators_messages. reflexivity.
  - rewrite fmap_app, messages_with_indicator. fields.
    rewrite messages_app, fmap_app, <- app_assoc. reflexivity.
  - rewrite effects_with_indicator. fields. by rewrite <- app_assoc.
Qed.

Lemma send_failure_witness :
  reachable (steps (initial []) [TypeUserId (js "bob"); ClickStart;
                                 TypeMessage (js "hello")]) /\
  typingEl
    (steps (steps (initial []) [TypeUserId (js "bob"); ClickStart;
                                TypeMessage (js "hello")])
       (ClickSend ::
        failure_events
          (next_rid (steps (initial []) [TypeUserId (js "bob"); ClickStart;
                                         TypeMessage (js "hello")]))
          NetworkFails)) = None.
Proof.
  split; [apply reachable_steps; constructor|].
  exact (proj1 (send_failure
                  (steps (initial []) [TypeUserId (js "bob"); ClickStart;
                                       TypeMessage (js "hello")])
                  NetworkFails
                  (reachable_steps _ _ (reachable_initial []))
                  eq_refl eq_refl)).
Defined.

(** ** C8: [hideTyping] *)

(** C8. [hideTyping] never throws. With an empty slot it returns the page
    as it is. With an indicator in the slot it empties the slot, and
    calls [removeChild] only when the indicator is a child of the log;
    for a detached indicator the log is left as it is, where an unguarded
    [removeChild] would throw. *)
Theorem hideTyping_guarded p :
  hideTyping p =
  Done tt
    match typingEl p with
    | None => p
    | Some el =>
        set_typingEl None
          (if attached el (chat p) then set_chat (without el (chat p)) p else p)
    end
  /\ match typingEl p with
     | None => True
     | Some el =>
         if attached el (chat p) then True
         else chat_removeChild el p = Thrown NotFoundError p
     end.
Proof.
  split; [apply hideTyping_eq|].
  destruct (typingEl p) as [el|]; [|done].
  unfold chat_removeChild. by destruct (attached el (chat p)).
Qed.

(** ** C9: the order of the substitutions *)



(** The paragraph step on a text with one blank line. *)
Lemma paragraphs_blank_line u v :
  forallb (fun c => negb (LF =? c)) u = true ->
  forallb (fun c => negb (LF =? c)) v = true ->
  paragraphs (u ++ [LF; LF] ++ v) = u ++ js "</p><p>" ++ v.
Proof.
  intros Hu Hv. unfold paragraphs.
  rewrite (replace_lit_skip LF [LF] _ u) by done.
  rewrite replace_lit_eq by done. rewrite strip_prefix_app.
  by rewrite (replace_lit_id [LF; LF] _ v); [|done|apply count_sub_absent].
Qed.

(** The bullet step leaves a text without a newline as it is. *)
Lemma bullets_no_newline s :
  forallb (fun c => negb (LF =? c)) s = true -> bullets s = s.
Proof.
  intros Hs. unfold bullets. apply replace_lit_id; [done|].
  by apply count_sub_absent.
Qed.

(** The bullet step on two plain texts around a newline and a hyphen. *)
Lemma format_bullet a b :
  plain a -> plain b ->
  format (a ++ LF :: js "-" ++ b) = a ++ js "<br>" ++ [BULLET] ++ b.
Proof.
  intros Ha Hb. unfold format.
  rewrite emphasis_id
    by (rewrite forallb_app; cbn [forallb js];
        rewrite (plain_no_star a Ha), forallb_app, (plain_no_star b Hb); done).
  assert (paragraphs (a ++ LF :: js "-" ++ b) = a ++ LF :: js "-" ++ b) as ->.
  { unfold paragraphs.
    rewrite (replace_lit_skip LF [LF] _ a) by by apply plain_no_LF.
    rewrite replace_lit_eq by done.
    change (JsString.strip_prefix [LF; LF] (LF :: js "-" ++ b))
      with (@None jsstring).
    rewrite replace_lit_eq by done.
    change (JsString.strip_prefix [LF; LF] (js "-" ++ b)) with (@None jsstring).
    change (js "-" ++ b) with (45 :: b). cbv beta iota.
    by rewrite (replace_lit_id [LF; LF] _ b);
      [|done|apply count_sub_absent, plain_no_LF]. }
  unfold bullets.
  rewrite (replace_lit_skip LF (js "-") _ a) by by apply plain_no_LF.
  change (LF :: js "-" ++ b) with ((LF :: js "-") ++ b).
  rewrite replace_lit_eq by done. rewrite strip_prefix_app.
  by rewrite (replace_lit_id (LF :: js "-") _ b);
    [|done|apply count_sub_absent, plain_no_LF].
Qed.

(** The lazy group does not reach over a line terminator. *)
Lemma lazy_dots_line_end d a c r :
  plain a -> JsString.line_terminator c = true ->
  RegExp.lazy_dots (STAR :: d) (a ++ c :: r) = None.
Proof.
  intros Ha Hc. unfold plain in Ha.
  assert ((STAR =? c) = false) as Hstar.
  { unfold JsString.line_terminator in Hc. unfold STAR.
    destruct (N.eqb_spec 42 c) as [<-|]; [discriminate Hc|done]. }
  induction a as [|x a IH].
  - cbn [app RegExp.lazy_dots]. by rewrite Hc.
  - cbn [forallb] in Ha.
    apply andb_true_iff in Ha as [[Hx Hxl]%andb_true_iff Ha].
    apply negb_true_iff in Hxl.
    change ((x :: a) ++ c :: r) with (x :: (a ++ c :: r)).
    cbn [RegExp.lazy_dots]. rewrite Hxl, (IH Ha).
    destruct a as [|y a]; cbn [app JsString.strip_prefix].
    + by rewrite Hstar.
    + cbn [forallb] in Ha.
      apply andb_true_iff in Ha as [[Hy _]%andb_true_iff _].
      apply negb_true_iff in Hy. by rewrite Hy.
Qed.

(** A pair of asterisks around a blank line is no emphasis. *)
Lemma emphasis_across_blank_line a b :
  plain a -> a <> [] -> plain b ->
  italic (bold ([STAR] ++ a ++ [LF; LF] ++ b ++ [STAR]))
  = [STAR] ++ a ++ [LF; LF] ++ b ++ [STAR].
Proof.
  intros Ha Hne Hb.
  assert (forallb (fun c => negb (STAR =? c)) (a ++ [LF; LF] ++ b) = true)
    as Hmid.
  { by rewrite !forallb_app, (plain_no_star a Ha), (plain_no_star b Hb). }
  assert (bold ([STAR] ++ a ++ [LF; LF] ++ b ++ [STAR])
          = [STAR] ++ a ++ [LF; LF] ++ b ++ [STAR]) as ->.
  { unfold bold. rewrite replace_emph_eq.
    assert (RegExp.match_here [STAR; STAR]
              ([STAR] ++ a ++ [LF; LF] ++ b ++ [STAR]) = None) as ->.
    { destruct a as [|x a]; [done|]. unfold plain in Ha. cbn [forallb] in Ha.
      apply andb_true_iff in Ha as [[Hx _]%andb_true_iff _].
      apply negb_true_iff in Hx.
      unfold RegExp.match_here. cbn [app JsString.strip_prefix].
      rewrite N.eqb_refl. by rewrite Hx. }
    cbn [app]. f_equal.
    replace (a ++ LF :: LF :: b ++ [STAR])
      with ((a ++ [LF; LF] ++ b) ++ [STAR]) by by rewrite <- !app_assoc.
    by rewrite (replace_emph_skip [STAR] _ _ _ [STAR] Hmid). }
  unfold italic. rewrite replace_emph_eq.
  assert (RegExp.match_here [STAR] ([STAR] ++ a ++ [LF; LF] ++ b ++ [STAR])
          = None) as ->.
  { unfold RegExp.match_here. cbn [app JsString.strip_prefix].
    rewrite N.eqb_refl. by apply lazy_dots_line_end. }
  cbn [app]. f_equal.
  replace (a ++ LF :: LF :: b ++ [STAR])
    with ((a ++ [LF; LF] ++ b) ++ [STAR]) by by rewrite <- !app_assoc.
  by rewrite (replace_emph_skip [] _ _ _ [STAR] Hmid).
Qed.

(** C9. [renderText] on a string is the opening tag, the four
    substitutions applied in the order bold, italic, paragraph breaks,
    bullets, and the closing tag. Bold and italic take the shortest group
    and resume behind it, left to right; so they compose: for plain
    non-empty [a] and [b], [**a** *b*] is rendered as
    [<p><strong>a</strong> <em>b</em></p>]. A blank line between [a] and
    [b] becomes a paragraph boundary, a newline and a hyphen become a
    line break and a bullet. The order shows: a blank line followed by a
    hyphen is a paragraph boundary and a hyphen, not a bullet (paragraph
    breaks before bullets); asterisks around a blank line stay asterisks
    (italic before paragraph breaks). *)
Theorem renderText_bold_before_italic t a b :
  plain a -> a <> [] -> plain b -> b <> [] ->
  renderText (VString t)
  = inr (js "<p>" ++ bullets (paragraphs (italic (bold t))) ++ js "</p>") /\
  (forall r, bold (js "**" ++ a ++ js "**" ++ r)
             = js "<strong>" ++ a ++ js "</strong>" ++ bold r) /\
  (forall r, italic (js "*" ++ b ++ js "*" ++ r)
             = js "<em>" ++ b ++ js "</em>" ++ italic r) /\
  renderText (VString (js "**" ++ a ++ js "** *" ++ b ++ js "*"))
  = inr (js "<p><strong>" ++ a ++ js "</strong> <em>" ++ b ++ js "</em></p>") /\
  renderText (VString (a ++ [LF; LF] ++ b))
  = inr (js "<p>" ++ a ++ js "</p><p>" ++ b ++ js "</p>") /\
  renderText (VString (a ++ LF :: js "-" ++ b))
  = inr (js "<p>" ++ a ++ js "<br>" ++ [BULLET] ++ b ++ js "</p>") /\
  renderText (VString (a ++ [LF; LF] ++ js "-" ++ b))
  = inr (js "<p>" ++ a ++ js "</p><p>-" ++ b ++ js "</p>") /\
  renderText (VString (js "*" ++ a ++ [LF; LF] ++ b ++ js "*"))
  = inr (js "<p>*" ++ a ++ js "</p><p>" ++ b ++ js "*</p>").
Proof.
  intros Ha Hane Hb Hbne.
  split; [apply renderText_string|].
  split; [intros r; by apply replace_emph_wrap|].
  split; [intros r; by apply replace_emph_wrap|].
  split.
  { rewrite renderText_string. unfold renderText_str, format. f_equal.
    assert (bold (js "**" ++ a ++ js "** *" ++ b ++ js "*")
            = js "<strong>" ++ a ++ js "</strong> *" ++ b ++ js "*") as ->.
    { change (js "** *" ++ b ++ js "*")
        with (js "**" ++ (32 :: STAR :: b ++ [STAR])).
      unfold bold. rewrite replace_emph_wrap by done.
      rewrite replace_emph_eq, match_here_other by done.
      destruct b as [|c b]; [done|].
      assert ((STAR =? c) = false) as Hc.
      { unfold plain in Hb. cbn [forallb] in Hb.
        apply andb_true_iff in Hb as [[Hc _]%andb_true_iff _].
        by apply negb_true_iff in Hc. }
      rewrite replace_emph_eq.
      assert (RegExp.match_here [STAR; STAR] (STAR :: (c :: b) ++ [STAR]) = None)
        as ->.
      { unfold RegExp.match_here. cbn [JsString.strip_prefix app].
        rewrite N.eqb_refl. cbn [JsString.strip_prefix]. by rewrite Hc. }
      rewrite replace_emph_skip by by apply plain_no_star.
      reflexivity. }
    assert (italic (js "<strong>" ++ a ++ js "</strong> *" ++ b ++ js "*")
            = js "<strong>" ++ a ++ js "</strong> <em>" ++ b ++ js "</em>") as ->.
    { change (js "<strong>" ++ a ++ js "</strong> *" ++ b ++ js "*")
        with (js "<strong>" ++ a ++ js "</strong> "
              ++ ([STAR] ++ b ++ [STAR] ++ [])).
      unfold italic.
      rewrite (replace_emph_skip [] _ _ (js "<strong>")) by reflexivity.
      rewrite (replace_emph_skip [] _ _ a) by by apply plain_no_star.
      rewrite (replace_emph_skip [] _ _ (js "</strong> ")) by reflexivity.
      rewrite replace_emph_wrap by done. reflexivity. }
    assert (forallb (fun c => negb (LF =? c))
              (js "<strong>" ++ a ++ js "</strong> <em>" ++ b ++ js "</em>")
            = true) as HLF.
    { rewrite !forallb_app, (plain_no_LF a Ha), (plain_no_LF b Hb).
      reflexivity. }
    unfold paragraphs, bullets.
    rewrite (replace_lit_id [LF; LF]); [|done|by apply count_sub_absent].
    rewrite (replace_lit_id (LF :: js "-")); [|done|by apply count_sub_absent].
    rewrite <- !app_assoc. reflexivity. }
  split.
  { rewrite renderText_string. unfold renderText_str.
    rewrite (format_blank_line a b Ha Hb). by rewrite <- !app_assoc. }
  split.
  { rewrite renderText_string. unfold renderText_str.
    rewrite (format_bullet a b Ha Hb). by rewrite <- !app_assoc. }
  split.
  { rewrite renderText_string. unfold renderText_str.
    assert (plain (js "-" ++ b)) as Hb' by exact Hb.
    rewrite (format_blank_line a (js "-" ++ b) Ha Hb').
    by rewrite <- !app_assoc. }
  rewrite renderText_string. unfold renderText_str, format.
  change (js "*" ++ a ++ [LF; LF] ++ b ++ js "*")
    with ([STAR] ++ a ++ [LF; LF] ++ b ++ [STAR]).
  rewrite (emphasis_across_blank_line a b Ha Hane Hb).
  replace ([STAR] ++ a ++ [LF; LF] ++ b ++ [STAR])
    with (([STAR] ++ a) ++ [LF; LF] ++ (b ++ [STAR]))
    by by rewrite <- !app_assoc.
  rewrite paragraphs_blank_line;
    [|by rewrite forallb_app, (plain_no_LF a Ha)
     |by rewrite forallb_app, (plain_no_LF b Hb)].
  rewrite bullets_no_newline
    by by rewrite !forallb_app, (plain_no_LF a Ha), (plain_no_LF b Hb).
  by rewrite <- !app_assoc.
Qed.

Lemma renderText_bold_before_italic_witness :
  (plain (js "a") /\ js "a" <> [] /\ plain (js "b") /\ js "b" <> []) /\
  renderText (VString (js "**a** *b*"))
  = inr (js "<p><strong>a</strong> <em>b</em></p>") /\
  renderText (VString (js "a" ++ LF :: js "-" ++ js "b"))
  = inr (js "<p>" ++ js "a" ++ js "<br>" ++ [BULLET] ++ js "b" ++ js "</p>") /\
  renderText (VString (js "a" ++ [LF; LF] ++ js "-" ++ js "b"))
  = inr (js "<p>" ++ js "a" ++ js "</p><p>-" ++ js "b" ++ js "</p>").
Proof.
  split; [by repeat split|].
  assert (js "a" <> []) as Ha by discriminate.
  assert (js "b" <> []) as Hb by discriminate.
  destruct (renderText_bold_before_italic [] (js "a") (js "b")
              eq_refl Ha eq_refl Hb)
    as (_ & _ & _ & Hcompose & _ & Hbullet & Horder & _).
  split; [exact Hcompose|]. split; [exact Hbullet|exact Horder].
Defined.

(** ** C10: the session is usable while the start request is in flight *)

(** C10. Once [startSession] has accepted the user id, at the [await] of
    its request (the call is suspended, no response has arrived),
    [currentUser] is the trimmed id; it stays so whatever is delivered
    afterwards, short of another start; and [send] with a non-empty text
    passes its guard there: it posts the text under that id. *)
Theorem currentUser_set_before_request p :
  JsString.is_empty (JsString.trim (userInput p)) = false ->
  let q := step p ClickStart in
  currentUser q = JsString.trim (userInput p) /\
  pending q !! next_rid p = Some (StartSession, AwaitFetch) /\
  (forall evs, forallb (fun ev => negb (is_start ev)) evs = true ->
     currentUser (steps q evs) = JsString.trim (userInput p)) /\
  (forall text, JsString.is_empty (JsString.trim text) = false ->
     effects (steps q [TypeMessage text; ClickSend]) =
     effects q ++
     [Fetch (next_rid q)
        (post p (js "/api/chat")
           (VObject [(js "user_id", VString (JsString.trim (userInput p)));
                     (js "message", VString (JsString.trim text))]))]).
Proof.
  intros Hid q.
  assert (currentUser q = JsString.trim (userInput p)) as Hu.
  { subst q. rewrite step_currentUser. by rewrite Hid. }
  split; [done|]. split; [|split].
  - subst q. cbn [step]. rewrite (startSession_valid p Hid).
    fields. apply lookup_insert_eq.
  - intros evs Hevs. by rewrite currentUser_steps.
  - intros text Htext. unfold steps. cbn [fold_left].
    change (step (step q (TypeMessage text)) ClickSend)
      with (run send (set_msgInput text q)).
    rewrite send_valid; [|done|fields; by rewrite Hu].
    cbv zeta. fields. rewrite effects_with_indicator. fields.
    unfold chat_request, post. fields. rewrite Hu.
    subst q. cbn [step]. rewrite (startSession_valid p Hid). fields.
    by rewrite API_BASE_with_indicator.
Qed.

Lemma currentUser_set_before_request_witness :
  JsString.is_empty
    (JsString.trim (userInput (step (initial []) (TypeUserId (js " bob "))))) = false
  /\ currentUser (steps (initial []) [TypeUserId (js " bob "); ClickStart]) = js "bob".
Proof.
  split; [reflexivity|].
  apply (currentUser_set_before_request
           (step (initial []) (TypeUserId (js " bob ")))).
  reflexivity.
Defined.

(** * Further properties of the script *)

(** ** renderText: what passes through, bullets, the shortest group *)

(** X13. A text without an asterisk, without a blank line and without a
    newline followed by a hyphen is rendered as it is between [<p>] and
    [</p>]: nothing in it is escaped, so markup in the text (a [<], a
    tag) reaches [innerHTML] unchanged. *)
Theorem renderText_passes_through t :
  forallb (fun c => negb (STAR =? c)) t = true ->
  JsString.count_sub [LF; LF] t = 0%nat ->
  JsString.count_sub (LF :: js "-") t = 0%nat ->
  renderText (VString t) = inr (js "<p>" ++ t ++ js "</p>").
Proof.
  intros Hstar Hnn Hitem. rewrite renderText_string.
  unfold renderText_str, format. rewrite (emphasis_id t Hstar).
  unfold paragraphs, bullets.
  rewrite (replace_lit_id [LF; LF]) by done.
  by rewrite (replace_lit_id (LF :: js "-")).
Qed.

Lemma renderText_passes_through_witness :
  forallb (fun c => negb (STAR =? c)) (js "<img src=x onerror=alert(1)>") = true /\
  renderText (VString (js "<img src=x onerror=alert(1)>"))
  = inr (js "<p>" ++ js "<img src=x onerror=alert(1)>" ++ js "</p>").
Proof.
  split; [reflexivity|].
  apply (renderText_passes_through (js "<img src=x onerror=alert(1)>"));
    reflexivity.
Defined.

(** X14. A newline followed by a hyphen becomes a line break and a
    bullet: two plain texts around it are rendered with [<br>] and the
    bullet between them, inside one paragraph. *)
Theorem renderText_bullet a b :
  plain a -> plain b ->
  renderText (VString (a ++ LF :: js "-" ++ b))
  = inr (js "<p>" ++ a ++ js "<br>" ++ [BULLET] ++ b ++ js "</p>").
Proof.
  intros Ha Hb. rewrite renderText_string. unfold renderText_str, format.
  rewrite emphasis_id
    by (rewrite forallb_app; cbn [forallb js];
        rewrite (plain_no_star a Ha), forallb_app, (plain_no_star b Hb); done).
  assert (JsString.count_sub [LF; LF] (a ++ LF :: js "-" ++ b) = 0%nat) as Hnn.
  { pose proof (plain_no_LF a Ha) as HaLF. clear Ha.
    induction a as [|c a IH].
    - change ([] ++ LF :: js "-" ++ b) with (LF :: 45 :: b).
      rewrite !count_sub_cons.
      rewrite (count_sub_absent LF [LF] b (plain_no_LF b Hb)). reflexivity.
    - cbn [forallb] in HaLF. apply andb_true_iff in HaLF as [Hc HaLF].
      apply negb_true_iff in Hc.
      change ((c :: a) ++ LF :: js "-" ++ b) with (c :: (a ++ LF :: js "-" ++ b)).
      rewrite count_sub_cons, (IH HaLF). unfold JsString.starts_with.
      cbn [JsString.strip_prefix]. by rewrite Hc. }
  unfold paragraphs, bullets. rewrite (replace_lit_id [LF; LF]) by done.
  rewrite (replace_lit_skip LF (js "-") _ a) by by apply plain_no_LF.
  change (LF :: js "-" ++ b) with ((LF :: js "-") ++ b).
  rewrite replace_lit_eq by done. rewrite strip_prefix_app.
  rewrite (replace_lit_id (LF :: js "-") _ b);
    [|done|by apply count_sub_absent, plain_no_LF].
  by rewrite <- !app_assoc.
Qed.

Lemma renderText_bullet_witness :
  (plain (js "To do:") /\ plain (js " milk")) /\
  renderText (VString (js "To do:" ++ LF :: js "-" ++ js " milk"))
  = inr (js "<p>" ++ js "To do:" ++ js "<br>" ++ [BULLET] ++ js " milk"
         ++ js "</p>").
Proof.
  split; [by split|].
  apply (renderText_bullet (js "To do:") (js " milk")); reflexivity.
Defined.

Lemma lazy_dots_shortest d s g r :
  RegExp.lazy_dots d s = Some (g, r) ->
  forall g1 g2, g = g1 ++ g2 -> g1 <> [] -> g2 <> [] ->
    JsString.strip_prefix d (g2 ++ d ++ r) = None.
Proof.
  revert g r. induction s as [|c s IH]; intros g r; cbn [RegExp.lazy_dots];
    [done|].
  destruct (JsString.line_terminator c); [done|].
  destruct (JsString.strip_prefix d s) as [r'|] eqn:E.
  - intros [= <- <-] g1 g2 Hg H1 H2.
    destruct g1 as [|x [|y g1]]; [done| |done].
    simpl in Hg. injection Hg as _ Hg. by subst g2.
  - destruct (RegExp.lazy_dots d s) as [[g' r'']|] eqn:L; [|done].
    intros [= <- <-] g1 g2 Hg H1 H2.
    destruct g1 as [|x g1]; [done|]. simpl in Hg. injection Hg as _ Hg.
    destruct g1 as [|y g1].
    + simpl in Hg. subst g2.
      destruct (lazy_dots_sound _ _ _ _ L) as (Hs & _ & _).
      by rewrite <- Hs.
    + by apply (IH g' r'' eq_refl (y :: g1) g2).
Qed.

(** X15. A match of [d(.+?)d] at the head of a string consists of the
    delimiter, a non-empty group without a line terminator, and the
    delimiter; and the group is the shortest one: the delimiter does not
    start at any earlier place behind the group's first unit. *)
Theorem match_here_shortest d s g r :
  RegExp.match_here d s = Some (g, r) ->
  s = d ++ g ++ d ++ r /\
  g <> [] /\
  forallb (fun c => negb (JsString.line_terminator c)) g = true /\
  forall g1 g2, g = g1 ++ g2 -> g1 <> [] -> g2 <> [] ->
    JsString.strip_prefix d (g2 ++ d ++ r) = None.
Proof.
  unfold RegExp.match_here.
  destruct (JsString.strip_prefix d s) as [s1|] eqn:E; [|done].
  intros H. apply strip_prefix_Some in E as ->.
  destruct (lazy_dots_sound _ _ _ _ H) as (-> & Hne & Hlt).
  split; [done|]. split; [done|]. split; [done|].
  by apply (lazy_dots_shortest d _ g r H).
Qed.

Lemma match_here_shortest_witness :
  RegExp.match_here [STAR; STAR] (js "**a**b**") = Some (js "a", js "b**") /\
  js "**a**b**" = [STAR; STAR] ++ js "a" ++ [STAR; STAR] ++ js "b**".
Proof.
  split; [reflexivity|].
  apply (match_here_shortest [STAR; STAR] (js "**a**b**") (js "a") (js "b**")).
  reflexivity.
Defined.

(** ** The shape of a turn *)

Lemma messages_messages l : messages (messages l) = messages l.
Proof. apply messages_id, indicators_messages. Qed.

Lemma settled_quiet p log n :
  settled p log n [] = set_chat log (set_next_uid n (set_typingEl None p)).
Proof. unfold settled. by rewrite app_nil_r. Qed.

Lemma caught_settled text e p :
  caught text e p =
  settled p
    (messages (chat p)
     ++ [message_row (next_uid p) (js "assistant") (renderText_str text)])
    (S (S (next_uid p))) [ConsoleError [LogError e]].
Proof. reflexivity. Qed.

(** What is left of [send] after the body has been parsed: in each of
    its three ways out, one assistant row behind the messages, an empty
    slot, and at most a line on the console. *)
Lemma send_resume_shape ok data p :
  consistent p ->
  exists rows n logs,
    send_resume ok data p
    = Done tt (settled p (messages (chat p) ++ rows) n logs) /\
    indicators rows = [] /\ length rows = 1%nat /\
    forallb is_console logs = true.
Proof.
  intros Hc. unfold send_resume, try_catch, bind.
  rewrite (hideTyping_consistent p Hc).
  destruct (ok && truthy data && truthy (get_prop data (js "response"))).
  - destruct (addMessage_cases (js "assistant") (get_prop data (js "response"))
                (set_typingEl None (set_chat (messages (chat p)) p)))
      as [(markup & _ & ->)|(e & _ & ->)].
    + eexists [_], _, []. rewrite settled_quiet. by repeat split.
    + rewrite send_catch_eq
        by (apply consistent_bump; [simpl; lia|by apply consistent_hidden]).
      rewrite caught_settled. fields. rewrite messages_messages.
      eexists [_], _, [_]. by repeat split.
  - rewrite addMessage_string. unfold console_error, modify.
    eexists [_], _, [_]. by repeat split.
Qed.

Lemma startSession_resume_shape ok data p :
  exists rows n logs,
    startSession_resume ok data p = Done tt (settled p ([] ++ rows) n logs) /\
    indicators rows = [] /\ length rows = 1%nat /\
    forallb is_console logs = true.
Proof.
  unfold startSession_resume, try_catch.
  destruct (hide_then_clear p) as (q & Hq & Hclear).
  unfold bind, modify. rewrite Hq, Hclear.
  destruct (ok && truthy data && truthy (get_prop data (js "message"))).
  - destruct (addMessage_cases (js "assistant") (get_prop data (js "message"))
                (set_chat [] (set_typingEl None p)))
      as [(markup & _ & ->)|(e & _ & ->)].
    + eexists [_], _, []. rewrite settled_quiet. by repeat split.
    + unfold startSession_catch, bind.
      rewrite hideTyping_none by reflexivity.
      rewrite addMessage_string. unfold console_error, modify.
      eexists [_], _, [_]. by repeat split.
  - rewrite addMessage_string. unfold console_error, modify.
    eexists [_], _, [_]. by repeat split.
Qed.

Lemma resume_shape h ok data p :
  consistent p ->
  exists rows n logs,
    resume_of h ok data p
    = Done tt (settled p ((match h with
                           | StartSession => []
                           | Send => messages (chat p)
                           end) ++ rows) n logs) /\
    indicators rows = [] /\ length rows = 1%nat /\
    forallb is_console logs = true.
Proof.
  intros Hc. destruct h; cbn [resume_of].
  - apply startSession_resume_shape.
  - by apply send_resume_shape.
Qed.

Lemma settled_set_pending m p log n logs :
  settled (set_pending m p) log n logs = set_pending m (settled p log n logs).
Proof. reflexivity. Qed.

(** Every turn of the event loop is of one of the kinds of [turn]. *)
Lemma step_turn p ev : consistent p -> turn p (step p ev).
Proof.
  intros Hc. destruct ev as [s|s| | |key|rid|rid ok|rid|rid data]; cbn [step].
  - apply turn_edit_user.
  - apply turn_edit_msg.
  - destruct (JsString.is_empty (JsString.trim (userInput p))) eqn:G.
    + rewrite (startSession_invalid p G). by apply turn_alert.
    + rewrite (startSession_valid p G). by apply turn_start.
  - destruct (JsString.is_empty (JsString.trim (msgInput p))) eqn:G1;
      [|destruct (JsString.is_empty (currentUser p)) eqn:G2].
    + unfold run. rewrite send_invalid by by left. apply turn_ignored.
    + unfold run. rewrite send_invalid by by right. apply turn_ignored.
    + rewrite (send_valid p G1 G2). by apply turn_send.
  - destruct (JsString.eqb key (js "Enter")); [|apply turn_ignored].
    destruct (JsString.is_empty (JsString.trim (msgInput p))) eqn:G1;
      [|destruct (JsString.is_empty (currentUser p)) eqn:G2].
    + unfold run. rewrite send_invalid by by left. apply turn_ignored.
    + unfold run. rewrite send_invalid by by right. apply turn_ignored.
    + rewrite (send_valid p G1 G2). by apply turn_send.
  - destruct (pending p !! rid) as [[h st]|] eqn:Hp; [|apply turn_ignored].
    destruct st as [|ok]; [|apply turn_ignored].
    rewrite catch_of_eq by by apply consistent_set_pending.
    rewrite caught_settled.
    by apply (turn_settled p rid h AwaitFetch false [_] _ [_]).
  - destruct (pending p !! rid) as [[h st]|] eqn:Hp; [|apply turn_ignored].
    destruct st as [|ok']; [|apply turn_ignored].
    by apply turn_response.
  - destruct (pending p !! rid) as [[h st]|] eqn:Hp; [|apply turn_ignored].
    destruct st as [|ok]; [apply turn_ignored|].
    rewrite catch_of_eq by by apply consistent_set_pending.
    rewrite caught_settled.
    by apply (turn_settled p rid h (AwaitJson ok) false [_] _ [_]).
  - destruct (pending p !! rid) as [[h st]|] eqn:Hp; [|apply turn_ignored].
    destruct st as [|ok]; [apply turn_ignored|].
    destruct (resume_shape h ok data (set_pending (delete rid (pending p)) p))
      as (rows & n & logs & Hrun & Hrows & Hlen & Hlogs);
      [by apply consistent_set_pending|].
    unfold run. rewrite Hrun. destruct h.
    + apply (turn_settled p rid StartSession (AwaitJson ok) true rows n logs);
        eauto.
    + by apply (turn_settled p rid Send (AwaitJson ok) false rows n logs).
Qed.

(** ** What every turn keeps *)

Lemma forallb_snoc {A} (f : A -> bool) l x :
  forallb f (l ++ [x]) = forallb f l && f x.
Proof. rewrite forallb_app. simpl. by rewrite andb_true_r. Qed.

Lemma turn_quiet p q : turn p q -> quiet p -> quiet q.
Proof.
  unfold quiet.
  intros [s|s| |G|G|G1 G2|rid h ok Hp|rid h st clear rows n logs Hp _ _ _ Hlogs]
    Hq; unfold dispatched; fields; try done.
  - by rewrite forallb_snoc, Hq.
  - rewrite forallb_snoc, effects_with_indicator. fields. by rewrite Hq.
  - rewrite forallb_snoc, effects_with_indicator. unfold typed_in. fields.
    by rewrite Hq.
  - cbn [effects settled set_pending]. rewrite forallb_app, Hq.
    clear -Hlogs. induction logs as [|[] logs IH]; try done.
    simpl in *. by apply IH.
Qed.

Lemma is_empty_false s : JsString.is_empty s = false -> s <> [].
Proof. by destruct s. Qed.

Lemma turn_tidy base p q : turn p q -> tidy base p -> tidy base q.
Proof.
  intros [s|s| |G|G|G1 G2|rid h ok Hp|rid h st clear rows n logs Hp _ _ _ Hlogs]
    [Hb Hu Hs]; try (by split).
  - split; fields; [done|done|]. apply Forall_app. by split; [|repeat constructor].
  - split; unfold dispatched; fields.
    + by rewrite API_BASE_with_indicator.
    + rewrite currentUser_with_indicator. fields. by eexists.
    + rewrite effects_with_indicator. fields. apply Forall_app. split; [done|].
      constructor; [|constructor]. left.
      exists (JsString.trim (userInput p)).
      split; [by apply is_empty_false|]. split; [by eexists|].
      unfold start_request, post. by rewrite Hb.
  - split; unfold dispatched; fields.
    + by rewrite API_BASE_with_indicator.
    + by rewrite currentUser_with_indicator.
    + rewrite effects_with_indicator. fields. apply Forall_app. split; [done|].
      constructor; [|constructor]. right.
      exists (currentUser p), (JsString.trim (msgInput p)).
      split; [by apply is_empty_false|]. split; [done|].
      split; [by apply is_empty_false|]. split; [by eexists|].
      unfold chat_request, post. by rewrite Hb.
  - split; cbn [API_BASE currentUser effects settled set_pending];
      [done|done|].
    apply Forall_app. split; [done|].
    clear -Hlogs. induction logs as [|[] logs IH]; try done.
    constructor; [exact I|]. by apply IH.
Qed.

Lemma tidy_initial base : tidy base (initial base).
Proof. split; simpl; [done|by exists []|constructor]. Qed.

Lemma turn_API_BASE p q : turn p q -> API_BASE q = API_BASE p.
Proof.
  intros [s|s| |G|G|G1 G2|rid h ok Hp|rid h st clear rows n logs Hp _ _ _ _];
    try done; unfold dispatched; fields; by rewrite API_BASE_with_indicator.
Qed.

Lemma insert_nonempty (m : gmap nat (handler * stage)) k v : <[k := v]> m <> ∅.
Proof. apply insert_non_empty. Qed.

Lemma turn_live p q : turn p q -> live p -> live q.
Proof.
  intros [s|s| |G|G|G1 G2|rid h ok Hp|rid h st clear rows n logs Hp _ _ _ _]
    [Hf Hs]; try (by split).
  - split; unfold dispatched; fields.
    + intros rid Hrid. rewrite lookup_insert_ne by lia. apply Hf. lia.
    + intros _. apply insert_nonempty.
  - split; unfold dispatched; fields.
    + intros rid Hrid. rewrite lookup_insert_ne by lia. apply Hf. lia.
    + intros _. apply insert_nonempty.
  - split; unfold dispatched; fields.
    + intros rid' Hrid. destruct (decide (rid = rid')) as [<-|Hne].
      * by rewrite Hf in Hp.
      * rewrite lookup_insert_ne by done. by apply Hf.
    + intros _. apply insert_nonempty.
  - split; cbn [next_rid pending typingEl settled set_pending]; [|done].
    intros rid' Hrid. destruct (decide (rid = rid')) as [<-|Hne].
    + apply lookup_delete_eq.
    + rewrite lookup_delete_ne by done. by apply Hf.
Qed.

Lemma live_initial base : live (initial base).
Proof. split; simpl; [intros; apply lookup_empty|done]. Qed.

Lemma reachable_quiet p : reachable p -> quiet p.
Proof.
  induction 1 as [base|p ev Hr IH]; [done|].
  by apply (turn_quiet p), IH; apply step_turn, reachable_consistent.
Qed.

Lemma reachable_tidy p : reachable p -> tidy (API_BASE p) p.
Proof.
  induction 1 as [base|p ev Hr IH]; [apply tidy_initial|].
  pose proof (step_turn p ev (reachable_consistent p Hr)) as Ht.
  rewrite (turn_API_BASE _ _ Ht). by apply (turn_tidy _ p).
Qed.

Lemma reachable_live p : reachable p -> live p.
Proof.
  induction 1 as [base|p ev Hr IH]; [apply live_initial|].
  by apply (turn_live p), IH; apply step_turn, reachable_consistent.
Qed.

(** ** Invariants of the running page *)

(** X7. No error escapes a handler: on every reachable page the effects
    hold no unhandled rejection, whatever the servers answered (a
    rejected request, a body that is not JSON, a payload of any shape). *)
Theorem no_unhandled_rejection p e :
  reachable p -> UnhandledRejection e ∉ effects p.
Proof.
  intros Hq%reachable_quiet Hin. unfold quiet in Hq.
  rewrite forallb_forall in Hq. apply list_elem_of_In in Hin.
  by specialize (Hq _ Hin).
Qed.

Lemma no_unhandled_rejection_witness :
  reachable (steps (initial [])
               [TypeUserId (js "bob"); ClickStart; FetchResolved 0%nat true;
                JsonResolved 0%nat (VObject [(js "message", VBool true)])]) /\
  UnhandledRejection TypeError ∉
    effects (steps (initial [])
               [TypeUserId (js "bob"); ClickStart; FetchResolved 0%nat true;
                JsonResolved 0%nat (VObject [(js "message", VBool true)])]).
Proof.
  split; [apply reachable_steps; constructor|].
  apply (no_unhandled_rejection
           (steps (initial [])
              [TypeUserId (js "bob"); ClickStart; FetchResolved 0%nat true;
               JsonResolved 0%nat (VObject [(js "message", VBool true)])])
           TypeError).
  apply reachable_steps; constructor.
Defined.

(** X11. Every request the script has sent is well formed: it goes to
    [API_BASE] followed by [/api/start_session] or [/api/chat], as a POST
    with a JSON content type, with a non-empty trimmed [user_id] and, for
    a chat request, a non-empty trimmed [message]. In particular no chat
    request leaves before a start has set [currentUser]. *)
Theorem requests_well_formed p :
  reachable p -> Forall (sent_ok (API_BASE p)) (effects p).
Proof. intros Hr. apply (tidy_sent _ _ (reachable_tidy p Hr)). Qed.

Lemma requests_well_formed_witness :
  reachable (steps (initial (js "http://h"))
               [TypeUserId (js " bob "); ClickStart;
                TypeMessage (js " hi "); ClickSend]) /\
  Forall (sent_ok (API_BASE (steps (initial (js "http://h"))
                               [TypeUserId (js " bob "); ClickStart;
                                TypeMessage (js " hi "); ClickSend])))
    (effects (steps (initial (js "http://h"))
                [TypeUserId (js " bob "); ClickStart;
                 TypeMessage (js " hi "); ClickSend])).
Proof.
  split; [apply reachable_steps; constructor|].
  apply (requests_well_formed
           (steps (initial (js "http://h"))
              [TypeUserId (js " bob "); ClickStart;
               TypeMessage (js " hi "); ClickSend])).
  apply reachable_steps; constructor.
Defined.

(** X8. The indicator is shown only while a request is in flight: on a
    reachable page without a suspended call the slot is empty and no
    indicator is attached to the log. *)
Theorem no_request_no_indicator p :
  reachable p -> pending p = ∅ ->
  typingEl p = None /\ indicators (chat p) = [].
Proof.
  intros Hr Hp. pose proof (reachable_live p Hr) as [_ Hs].
  pose proof (reachable_consistent p Hr) as [Hi _ _].
  destruct (typingEl p) as [el|] eqn:E.
  - by destruct Hs.
  - by rewrite Hi.
Qed.

Lemma no_request_no_indicator_witness :
  (reachable (steps (initial [])
                [TypeUserId (js "bob"); ClickStart; FetchRejected 0%nat]) /\
   pending (steps (initial [])
              [TypeUserId (js "bob"); ClickStart; FetchRejected 0%nat]) = ∅) /\
  typingEl (steps (initial [])
              [TypeUserId (js "bob"); ClickStart; FetchRejected 0%nat]) = None.
Proof.
  split; [split; [apply reachable_steps; constructor|reflexivity]|].
  apply (no_request_no_indicator
           (steps (initial [])
              [TypeUserId (js "bob"); ClickStart; FetchRejected 0%nat]));
    [apply reachable_steps; constructor|reflexivity].
Defined.

(** The end of a suspended call, whichever way it goes. *)
Lemma settle_shape p rid h st ev :
  consistent p -> pending p !! rid = Some (h, st) -> settles rid st ev ->
  exists (clear : bool) rows n logs,
    step p ev
    = settled (set_pending (delete rid (pending p)) p)
        ((if clear then [] else messages (chat p)) ++ rows) n logs /\
    (clear = true -> h = StartSession /\ exists data, ev = JsonResolved rid data) /\
    indicators rows = [] /\ length rows = 1%nat.
Proof.
  intros Hc Hp Hev. destruct st as [|ok]; cbn [settles] in Hev.
  - subst ev. rewrite (step_FetchRejected p rid h Hp).
    rewrite catch_of_eq by by apply consistent_set_pending.
    rewrite caught_settled. eexists false, _, _, _.
      split; [reflexivity|]. by repeat split.
  - destruct Hev as [->|[data ->]].
    + rewrite (step_JsonRejected p rid h ok Hp).
      rewrite catch_of_eq by by apply consistent_set_pending.
      rewrite caught_settled. eexists false, _, _, _.
      split; [reflexivity|]. by repeat split.
    + rewrite (step_JsonResolved p rid h ok data Hp).
      destruct (resume_shape h ok data (set_pending (delete rid (pending p)) p))
        as (rows & n & logs & Hrun & Hrows & Hlen & _);
        [by apply consistent_set_pending|].
      unfold run. rewrite Hrun. destruct h.
      * exists true, rows, n, logs. split; [done|]. split; [|done].
        intros _. split; [done|by exists data].
      * by exists false, rows, n, logs.
Qed.

(** X9. Whatever ends a suspended call (its [fetch] rejected, its body
    not JSON, its body parsed) empties the slot and detaches the
    indicator, and only that call is removed from the suspended ones: the
    indicator goes although other requests may still be in flight. *)
Theorem settlement_hides_indicator p rid h st ev :
  reachable p -> pending p !! rid = Some (h, st) -> settles rid st ev ->
  typingEl (step p ev) = None /\
  indicators (chat (step p ev)) = [] /\
  pending (step p ev) = delete rid (pending p).
Proof.
  intros Hc%reachable_consistent Hp Hev.
  destruct (settle_shape p rid h st ev Hc Hp Hev)
    as (clear & rows & n & logs & -> & _ & Hrows & _).
  cbn [typingEl chat pending settled set_pending].
  split; [done|]. split; [|done].
  rewrite indicators_app, Hrows. destruct clear; [done|].
  by rewrite indicators_messages.
Qed.

Lemma settlement_hides_indicator_witness :
  (reachable (steps (initial [])
                [TypeUserId (js "bob"); ClickStart; TypeMessage (js "hi");
                 ClickSend]) /\
   pending (steps (initial [])
              [TypeUserId (js "bob"); ClickStart; TypeMessage (js "hi");
               ClickSend]) !! 0%nat = Some (StartSession, AwaitFetch) /\
   settles 0 AwaitFetch (FetchRejected 0)) /\
  typingEl (step (steps (initial [])
                    [TypeUserId (js "bob"); ClickStart; TypeMessage (js "hi");
                     ClickSend]) (FetchRejected 0)) = None.
Proof.
  split; [split; [apply reachable_steps; constructor|by split]|].
  apply (settlement_hides_indicator
           (steps (initial [])
              [TypeUserId (js "bob"); ClickStart; TypeMessage (js "hi");
               ClickSend]) 0%nat StartSession AwaitFetch (FetchRejected 0));
    [apply reachable_steps; constructor|reflexivity|reflexivity].
Defined.

Lemma messages_snoc_row l u role markup :
  messages (l ++ [message_row u role markup])
  = messages l ++ [message_row u role markup].
Proof. by rewrite messages_app. Qed.

(** X12. The log only grows, by at most one message a turn, except when
    the body of a start-session response has been parsed: every other
    turn of the event loop leaves the messages of the log in place and
    appends at most one. *)
Theorem log_only_grows p ev :
  reachable p ->
  match ev with
  | JsonResolved rid _ =>
      forall ok, pending p !! rid <> Some (StartSession, AwaitJson ok)
  | _ => True
  end ->
  exists k, messages (chat (step p ev)) = messages (chat p) ++ k /\
            (length k <= 1)%nat.
Proof.
  intros Hc%reachable_consistent Hev.
  assert (forall rid h st, pending p !! rid = Some (h, st) -> settles rid st ev ->
            exists k, messages (chat (step p ev)) = messages (chat p) ++ k /\
                      (length k <= 1)%nat) as Hsettle.
  { intros rid h st Hp Hs.
    destruct (settle_shape p rid h st ev Hc Hp Hs)
      as (clear & rows & n & logs & -> & Hclear & Hrows & Hlen).
    destruct clear.
    - destruct (Hclear eq_refl) as (-> & data & ->).
      destruct st as [|ok]; [cbn in Hs; discriminate|]. by destruct (Hev ok).
    - exists rows. cbn [chat settled]. split; [|lia].
      by rewrite messages_app, messages_messages, (messages_id rows). }
  assert (exists k, messages (chat p) = messages (chat p) ++ k /\
                    (length k <= 1)%nat) as Hsame.
  { exists []. rewrite app_nil_r. split; [done|simpl; lia]. }
  assert (exists k, messages (chat (run send p)) = messages (chat p) ++ k /\
                    (length k <= 1)%nat) as Hsend.
  { destruct (JsString.is_empty (JsString.trim (msgInput p))) eqn:G1;
      [|destruct (JsString.is_empty (currentUser p)) eqn:G2].
    - unfold run. by rewrite send_invalid by by left.
    - unfold run. by rewrite send_invalid by by right.
    - rewrite (send_valid p G1 G2). cbv zeta. fields.
      rewrite messages_with_indicator. fields. rewrite messages_snoc_row.
      eexists [_]. split; [done|simpl; lia]. }
  destruct ev as [s|s| | |key|rid|rid ok|rid|rid data]; cbn [step].
  - done.
  - done.
  - destruct (JsString.is_empty (JsString.trim (userInput p))) eqn:G.
    + by rewrite (startSession_invalid p G).
    + rewrite (startSession_valid p G). fields.
      by rewrite messages_with_indicator.
  - done.
  - by destruct (JsString.eqb key (js "Enter")).
  - destruct (pending p !! rid) as [[h st]|] eqn:Hp; [|done].
    destruct st as [|ok]; [|done].
    specialize (Hsettle rid h AwaitFetch Hp eq_refl).
    cbn [step] in Hsettle. by rewrite Hp in Hsettle.
  - destruct (pending p !! rid) as [[h st]|] eqn:Hp; [|done].
    by destruct st.
  - destruct (pending p !! rid) as [[h st]|] eqn:Hp; [|done].
    destruct st as [|ok]; [done|].
    specialize (Hsettle rid h (AwaitJson ok) Hp (or_introl eq_refl)).
    cbn [step] in Hsettle. by rewrite Hp in Hsettle.
  - destruct (pending p !! rid) as [[h st]|] eqn:Hp; [|done].
    destruct st as [|ok]; [done|].
    specialize (Hsettle rid h (AwaitJson ok) Hp
                  (or_intror (ex_intro _ data eq_refl))).
    cbn [step] in Hsettle. by rewrite Hp in Hsettle.
Qed.

Lemma log_only_grows_witness :
  reachable (steps (initial [])
               [TypeUserId (js "bob"); ClickStart; FetchRejected 0%nat;
                TypeMessage (js "hi")]) /\
  exists k,
    messages (chat (step (steps (initial [])
                            [TypeUserId (js "bob"); ClickStart;
                             FetchRejected 0%nat; TypeMessage (js "hi")])
                      ClickSend))
    = messages (chat (steps (initial [])
                        [TypeUserId (js "bob"); ClickStart;
                         FetchRejected 0%nat; TypeMessage (js "hi")])) ++ k /\
    (length k <= 1)%nat.
Proof.
  split; [apply reachable_steps; constructor|].
  apply (log_only_grows
           (steps (initial [])
              [TypeUserId (js "bob"); ClickStart; FetchRejected 0%nat;
               TypeMessage (js "hi")]) ClickSend);
    [apply reachable_steps; constructor|exact I].
Defined.

(** ** startSession: the other ways through *)

Lemma trim_start_blank s :
  JsString.trim_start s = [] <-> forallb JsString.trimmable s = true.
Proof.
  induction s as [|c s IH]; [done|]. simpl.
  destruct (JsString.trimmable c); [done|]. by split.
Qed.

Lemma trim_start_head s c r :
  JsString.trim_start s = c :: r -> JsString.trimmable c = false.
Proof.
  induction s as [|x s IH]; [done|]. simpl.
  destruct (JsString.trimmable x) eqn:E; [done|]. by intros [= <- _].
Qed.

Lemma forallb_rev {A} (f : A -> bool) l : forallb f (rev l) = forallb f l.
Proof.
  induction l as [|x l IH]; [done|]. simpl.
  rewrite forallb_app, IH. simpl. rewrite andb_true_r. apply andb_comm.
Qed.

(** [trim] gives the empty string exactly on blank strings. *)
Lemma trim_blank s :
  JsString.is_empty (JsString.trim s) = forallb JsString.trimmable s.
Proof.
  unfold JsString.trim.
  destruct (forallb JsString.trimmable s) eqn:E.
  - apply trim_start_blank in E. by rewrite E.
  - destruct (JsString.trim_start s) as [|c r] eqn:Ha.
    + apply trim_start_blank in Ha. congruence.
    + destruct (JsString.trim_start (rev (c :: r))) as [|y b] eqn:Hb.
      * apply trim_start_blank in Hb. rewrite forallb_rev in Hb.
        simpl in Hb. by rewrite (trim_start_head _ _ _ Ha) in Hb.
      * destruct (rev (y :: b)) eqn:Hr; [|done].
        apply (f_equal (@rev N)) in Hr. by rewrite rev_involutive in Hr.
Qed.

(** X1. [startSession] asks for a name, and does nothing else, exactly
    when the user id field is blank (empty, or white space and line
    terminators only); otherwise it takes the trimmed id as the session,
    shows the indicator and sends the start request. *)
Theorem startSession_blank_id p :
  step p ClickStart =
  if forallb JsString.trimmable (userInput p)
  then emit (Alert (js "Enter your name")) p
  else dispatched StartSession (start_request p) p
         (with_indicator (set_currentUser (JsString.trim (userInput p)) p)).
Proof.
  cbn [step]. rewrite <- trim_blank.
  destruct (JsString.is_empty (JsString.trim (userInput p))) eqn:G.
  - by apply startSession_invalid.
  - by apply startSession_valid.
Qed.

(** A response and its parsed body, delivered to the call that awaits
    them. *)
Lemma response_delivered p rid h ok data :
  pending p !! rid = Some (h, AwaitFetch) ->
  steps p [FetchResolved rid ok; JsonResolved rid data]
  = run (resume_of h ok data) (set_pending (delete rid (pending p)) p).
Proof.
  intros Hp. rewrite steps_cons, (step_FetchResolved p rid h ok Hp).
  unfold steps. cbn [fold_left].
  erewrite step_JsonResolved; [|fields; apply lookup_insert_eq].
  fields. by rewrite delete_insert_eq.
Qed.

Lemma start_flow p ok data :
  JsString.is_empty (JsString.trim (userInput p)) = false ->
  steps p [ClickStart; FetchResolved (next_rid p) ok;
           JsonResolved (next_rid p) data]
  = run (startSession_resume ok data)
      (set_pending (delete (next_rid p) (pending p))
         (set_next_rid (S (next_rid p))
            (emit (Fetch (next_rid p) (start_request p))
               (with_indicator
                  (set_currentUser (JsString.trim (userInput p)) p))))).
Proof.
  intros Hid. rewrite steps_cons. cbn [step].
  rewrite (startSession_valid p Hid).
  rewrite (response_delivered _ (next_rid p) StartSession);
    [|fields; apply lookup_insert_eq].
  fields. by rewrite delete_insert_eq.
Qed.

Lemma send_flow p ok data :
  JsString.is_empty (JsString.trim (msgInput p)) = false ->
  JsString.is_empty (currentUser p) = false ->
  steps p [ClickSend; FetchResolved (next_rid p) ok;
           JsonResolved (next_rid p) data]
  = run (send_resume ok data)
      (set_pending (delete (next_rid p) (pending p))
         (set_next_rid (S (next_rid p))
            (emit (Fetch (next_rid p) (chat_request p))
               (with_indicator (typed_in p))))).
Proof.
  intros Htext Huser. rewrite steps_cons. cbn [step].
  rewrite (send_valid p Htext Huser). cbv zeta.
  rewrite (response_delivered _ (next_rid p) Send);
    [|fields; apply lookup_insert_eq].
  fields. by rewrite delete_insert_eq.
Qed.

Lemma renderText_not_string v :
  truthy v = true -> (forall s, v <> VString s) -> renderText v = inl TypeError.
Proof.
  intros Ht Hs. unfold renderText. rewrite Ht.
  destruct v; try done. by destruct (Hs s).
Qed.

Lemma get_prop_truthy v k m : get_prop v k = VString m -> truthy v = true.
Proof. by destruct v. Qed.

(** The fallback branch of [startSession]. *)
Lemma startSession_resume_fallback ok data p :
  ok && truthy data && truthy (get_prop data (js "message")) = false ->
  run (startSession_resume ok data) p =
  emit (ConsoleError [LogString (js "Unexpected start_session payload:");
                      LogValue data])
    (set_chat [message_row (next_uid p) (js "assistant")
                 (renderText_str (js "Welcome back! You can start chatting."))]
       (set_next_uid (S (S (next_uid p))) (set_typingEl None p))).
Proof.
  intros Hcond. unfold run, startSession_resume, try_catch.
  destruct (hide_then_clear p) as (q & Hq & Hclear).
  unfold bind, modify. rewrite Hq, Hclear, Hcond.
  by rewrite addMessage_string.
Qed.

(** The success branch of [startSession] on a message that [renderText]
    rejects: the [catch] block takes over, on the emptied log. *)
Lemma startSession_resume_thrown data e p :
  truthy data = true -> truthy (get_prop data (js "message")) = true ->
  renderText (get_prop data (js "message")) = inl e ->
  run (startSession_resume true data) p =
  emit (ConsoleError [LogError e])
    (set_chat [message_row (S (S (next_uid p))) (js "assistant")
                 (renderText_str (js "Failed to start session. Please try again."))]
       (set_next_uid (S (S (S (S (next_uid p))))) (set_typingEl None p))).
Proof.
  intros Hd Hm He. unfold run, startSession_resume, try_catch.
  destruct (hide_then_clear p) as (q & Hq & Hclear).
  unfold bind, modify. rewrite Hq, Hclear, Hd, Hm. cbn [andb].
  destruct (addMessage_cases (js "assistant") (get_prop data (js "message"))
              (set_chat [] (set_typingEl None p)))
    as [(markup & Hr & _)|(e' & Hr & ->)]; [congruence|].
  assert (e' = e) as -> by congruence.
  unfold startSession_catch, bind. rewrite hideTyping_none by reflexivity.
  by rewrite addMessage_string.
Qed.

(** X4. A [startSession] that receives an ok response whose [message] is
    a non-empty string leaves a log of exactly one assistant row with the
    rendered message (whatever was in the log before), an empty slot, the
    trimmed id in [currentUser], and has written nothing to the console:
    its only effect is the request. *)
Theorem startSession_greets p data m :
  JsString.is_empty (JsString.trim (userInput p)) = false ->
  get_prop data (js "message") = VString m ->
  JsString.is_empty m = false ->
  let q := steps p [ClickStart; FetchResolved (next_rid p) true;
                    JsonResolved (next_rid p) data] in
  shown <$> chat q = [(js "msg assistant-msg", [renderText_str m])] /\
  typingEl q = None /\
  currentUser q = JsString.trim (userInput p) /\
  effects q = effects p ++ [Fetch (next_rid p) (start_request p)].
Proof.
  intros Hid Hm Hne. cbv zeta. rewrite (start_flow p true data Hid).
  rewrite (startSession_resume_message data m);
    [|by apply (get_prop_truthy data (js "message") m)|done|done].
  fields. split; [done|]. split; [done|].
  rewrite currentUser_with_indicator, effects_with_indicator. by fields.
Qed.

Lemma startSession_greets_witness :
  (JsString.is_empty
     (JsString.trim (userInput (step (initial []) (TypeUserId (js "bob")))))
   = false /\
   get_prop (VObject [(js "message", VString (js "Hello *bob*"))]) (js "message")
   = VString (js "Hello *bob*") /\
   JsString.is_empty (js "Hello *bob*") = false) /\
  shown <$> chat
    (steps (step (initial []) (TypeUserId (js "bob")))
       [ClickStart;
        FetchResolved (next_rid (step (initial []) (TypeUserId (js "bob")))) true;
        JsonResolved (next_rid (step (initial []) (TypeUserId (js "bob"))))
          (VObject [(js "message", VString (js "Hello *bob*"))])])
  = [(js "msg assistant-msg", [renderText_str (js "Hello *bob*")])].
Proof.
  split; [by repeat split|].
  exact (proj1 (startSession_greets
                  (step (initial []) (TypeUserId (js "bob")))
                  (VObject [(js "message", VString (js "Hello *bob*"))])
                  (js "Hello *bob*") eq_refl eq_refl eq_refl)).
Defined.

(** X2. A [startSession] whose response parses but is not an ok response
    with a truthy [message] (a failure status, a body without [message],
    an empty message, [null], a list) still counts as a start: the log is
    emptied and shows the fallback welcome, [currentUser] is the trimmed
    id, and the payload is written to the console. *)
Theorem startSession_fallback p ok data :
  JsString.is_empty (JsString.trim (userInput p)) = false ->
  ok && truthy data && truthy (get_prop data (js "message")) = false ->
  let q := steps p [ClickStart; FetchResolved (next_rid p) ok;
                    JsonResolved (next_rid p) data] in
  shown <$> chat q =
    [(js "msg assistant-msg",
      [renderText_str (js "Welcome back! You can start chatting.")])] /\
  typingEl q = None /\
  currentUser q = JsString.trim (userInput p) /\
  effects q =
    effects p ++
    [Fetch (next_rid p) (start_request p);
     ConsoleError [LogString (js "Unexpected start_session payload:");
                   LogValue data]].
Proof.
  intros Hid Hcond. cbv zeta. rewrite (start_flow p ok data Hid).
  rewrite (startSession_resume_fallback ok data _ Hcond).
  fields. split; [done|]. split; [done|].
  rewrite currentUser_with_indicator, effects_with_indicator. fields.
  by rewrite <- app_assoc.
Qed.

Lemma startSession_fallback_witness :
  (JsString.is_empty
     (JsString.trim (userInput (step (initial []) (TypeUserId (js "bob")))))
   = false /\
   false && truthy (VObject [(js "message", VString (js "down"))])
   && truthy (get_prop (VObject [(js "message", VString (js "down"))])
                (js "message")) = false) /\
  currentUser
    (steps (step (initial []) (TypeUserId (js "bob")))
       [ClickStart;
        FetchResolved (next_rid (step (initial []) (TypeUserId (js "bob")))) false;
        JsonResolved (next_rid (step (initial []) (TypeUserId (js "bob"))))
          (VObject [(js "message", VString (js "down"))])])
  = JsString.trim (userInput (step (initial []) (TypeUserId (js "bob")))).
Proof.
  split; [by split|].
  exact (proj1 (proj2 (proj2
    (startSession_fallback
       (step (initial []) (TypeUserId (js "bob"))) false
       (VObject [(js "message", VString (js "down"))]) eq_refl eq_refl)))).
Defined.

(** X3. A [startSession] that receives an ok response whose [message]
    is truthy but not a string (a number, [true], a list, an object)
    ends in its [catch] block: [renderText] throws a TypeError after the
    log has been emptied, so the log shows the failure message alone, the
    error is written to the console, and [currentUser] is the trimmed
    id. *)
Theorem startSession_message_not_string p data :
  JsString.is_empty (JsString.trim (userInput p)) = false ->
  truthy data = true ->
  truthy (get_prop data (js "message")) = true ->
  (forall s, get_prop data (js "message") <> VString s) ->
  let q := steps p [ClickStart; FetchResolved (next_rid p) true;
                    JsonResolved (next_rid p) data] in
  shown <$> chat q =
    [(js "msg assistant-msg",
      [renderText_str (js "Failed to start session. Please try again.")])] /\
  typingEl q = None /\
  currentUser q = JsString.trim (userInput p) /\
  effects q =
    effects p ++
    [Fetch (next_rid p) (start_request p); ConsoleError [LogError TypeError]].
Proof.
  intros Hid Hd Hm Hs. cbv zeta. rewrite (start_flow p true data Hid).
  rewrite (startSession_resume_thrown data TypeError _ Hd Hm)
    by by apply renderText_not_string.
  fields. split; [done|]. split; [done|].
  rewrite currentUser_with_indicator, effects_with_indicator. fields.
  by rewrite <- app_assoc.
Qed.

Lemma startSession_message_not_string_witness :
  (JsString.is_empty
     (JsString.trim (userInput (step (initial []) (TypeUserId (js "bob")))))
   = false /\
   truthy (VObject [(js "message", VNumber 42 1)]) = true /\
   truthy (get_prop (VObject [(js "message", VNumber 42 1)]) (js "message"))
   = true) /\
  typingEl
    (steps (step (initial []) (TypeUserId (js "bob")))
       [ClickStart;
        FetchResolved (next_rid (step (initial []) (TypeUserId (js "bob")))) true;
        JsonResolved (next_rid (step (initial []) (TypeUserId (js "bob"))))
          (VObject [(js "message", VNumber 42 1)])])
  = None.
Proof.
  split; [by repeat split|].
  refine (proj1 (proj2
    (startSession_message_not_string
       (step (initial []) (TypeUserId (js "bob")))
       (VObject [(js "message", VNumber 42 1)]) eq_refl eq_refl eq_refl _))).
  intros s. discriminate.
Defined.

(** ** send: the ways through after the request *)

Lemma send_resume_message data m p :
  consistent p ->
  get_prop data (js "response") = VString m -> JsString.is_empty m = false ->
  run (send_resume true data) p =
  set_chat (messages (chat p)
            ++ [message_row (next_uid p) (js "assistant") (renderText_str m)])
    (set_next_uid (S (S (next_uid p))) (set_typingEl None p)).
Proof.
  intros Hc Hm Hne. unfold run, send_resume, try_catch, bind.
  rewrite (hideTyping_consistent p Hc).
  rewrite (get_prop_truthy data (js "response") m Hm), Hm.
  cbn [truthy andb]. rewrite Hne. cbn [negb].
  by rewrite addMessage_string.
Qed.

Lemma send_resume_fallback ok data p :
  consistent p ->
  ok && truthy data && truthy (get_prop data (js "response")) = false ->
  run (send_resume ok data) p =
  emit (ConsoleError [LogString (js "Unexpected chat payload:"); LogValue data])
    (set_chat (messages (chat p)
               ++ [message_row (next_uid p) (js "assistant")
                     (renderText_str
                        (js "Hmm, I didn" ++ [APOSTROPHE]
                         ++ js "t get a response. Please try again."))])
       (set_next_uid (S (S (next_uid p))) (set_typingEl None p))).
Proof.
  intros Hc Hcond. unfold run, send_resume, try_catch, bind.
  rewrite (hideTyping_consistent p Hc), Hcond.
  by rewrite addMessage_string.
Qed.

Lemma send_resume_thrown data e p :
  consistent p ->
  truthy data = true -> truthy (get_prop data (js "response")) = true ->
  renderText (get_prop data (js "response")) = inl e ->
  run (send_resume true data) p =
  emit (ConsoleError [LogError e])
    (set_chat (messages (chat p)
               ++ [message_row (S (S (next_uid p))) (js "assistant")
                     (renderText_str (js "Network error. Please try again."))])
       (set_next_uid (S (S (S (S (next_uid p))))) (set_typingEl None p))).
Proof.
  intros Hc Hd Hm He. unfold run, send_resume, try_catch, bind.
  rewrite (hideTyping_consistent p Hc), Hd, Hm. cbn [andb].
  destruct (addMessage_cases (js "assistant") (get_prop data (js "response"))
              (set_typingEl None (set_chat (messages (chat p)) p)))
    as [(markup & Hr & _)|(e' & Hr & ->)]; [congruence|].
  assert (e' = e) as -> by congruence.
  rewrite send_catch_eq
    by (apply consistent_bump; [simpl; lia|by apply consistent_hidden]).
  unfold caught. fields. by rewrite messages_messages.
Qed.

(** The page [send] is resumed on is consistent. *)
Lemma consistent_sent p :
  JsString.is_empty (JsString.trim (msgInput p)) = false ->
  JsString.is_empty (currentUser p) = false ->
  consistent p ->
  consistent (set_pending (delete (next_rid p) (pending p))
                (set_next_rid (S (next_rid p))
                   (emit (Fetch (next_rid p) (chat_request p))
                      (with_indicator (typed_in p))))).
Proof.
  intros Htext Huser Hc.
  pose proof (step_consistent p ClickSend Hc) as H. cbn [step] in H.
  rewrite (send_valid p Htext Huser) in H. revert H.
  by apply consistent_ext.
Qed.

Lemma messages_sent p :
  messages (chat (with_indicator (typed_in p)))
  = messages (chat p)
    ++ [message_row (next_uid p) (js "user")
          (renderText_str (JsString.trim (msgInput p)))].
Proof.
  rewrite messages_with_indicator. unfold typed_in. fields.
  apply messages_snoc_row.
Qed.

(** X5. A [send] with a text and a session that receives an ok response
    whose [response] is a non-empty string: the log keeps its messages
    and gains the user's message and then the rendered answer, the
    message field is emptied, the slot is empty, and the only effect is
    the chat request. *)
Theorem send_answered p data m :
  reachable p ->
  JsString.is_empty (JsString.trim (msgInput p)) = false ->
  JsString.is_empty (currentUser p) = false ->
  get_prop data (js "response") = VString m ->
  JsString.is_empty m = false ->
  let q := steps p [ClickSend; FetchResolved (next_rid p) true;
                    JsonResolved (next_rid p) data] in
  shown <$> chat q =
    (shown <$> messages (chat p))
    ++ [(js "msg user-msg", [renderText_str (JsString.trim (msgInput p))]);
        (js "msg assistant-msg", [renderText_str m])] /\
  msgInput q = [] /\
  typingEl q = None /\
  effects q = effects p ++ [Fetch (next_rid p) (chat_request p)].
Proof.
  intros Hc%reachable_consistent Htext Huser Hm Hne. cbv zeta.
  rewrite (send_flow p true data Htext Huser).
  rewrite (send_resume_message data m _ (consistent_sent p Htext Huser Hc) Hm Hne).
  fields. rewrite messages_sent, !fmap_app, <- app_assoc.
  split; [done|]. rewrite msgInput_with_indicator, effects_with_indicator.
  by unfold typed_in.
Qed.

Lemma send_answered_witness :
  reachable (steps (initial []) [TypeUserId (js "bob"); ClickStart;
                                 TypeMessage (js " hi ")]) /\
  msgInput
    (steps (steps (initial []) [TypeUserId (js "bob"); ClickStart;
                                TypeMessage (js " hi ")])
       [ClickSend;
        FetchResolved
          (next_rid (steps (initial []) [TypeUserId (js "bob"); ClickStart;
                                         TypeMessage (js " hi ")])) true;
        JsonResolved
          (next_rid (steps (initial []) [TypeUserId (js "bob"); ClickStart;
                                         TypeMessage (js " hi ")]))
          (VObject [(js "response", VString (js "Hello"))])]) = [].
Proof.
  split; [apply reachable_steps; constructor|].
  exact (proj1 (proj2
    (send_answered
       (steps (initial []) [TypeUserId (js "bob"); ClickStart;
                            TypeMessage (js " hi ")])
       (VObject [(js "response", VString (js "Hello"))]) (js "Hello")
       (reachable_steps _ _ (reachable_initial []))
       eq_refl eq_refl eq_refl eq_refl))).
Defined.

(** X6. A [send] whose response parses but is not an ok response with a
    truthy [response] (a failure status, a missing or empty field): the
    log gains the user's message and then the fallback text, and the
    payload is written to the console. *)
Theorem send_fallback p ok data :
  reachable p ->
  JsString.is_empty (JsString.trim (msgInput p)) = false ->
  JsString.is_empty (currentUser p) = false ->
  ok && truthy data && truthy (get_prop data (js "response")) = false ->
  let q := steps p [ClickSend; FetchResolved (next_rid p) ok;
                    JsonResolved (next_rid p) data] in
  shown <$> chat q =
    (shown <$> messages (chat p))
    ++ [(js "msg user-msg", [renderText_str (JsString.trim (msgInput p))]);
        (js "msg assistant-msg",
         [renderText_str (js "Hmm, I didn" ++ [APOSTROPHE]
                          ++ js "t get a response. Please try again.")])] /\
  typingEl q = None /\
  effects q =
    effects p ++
    [Fetch (next_rid p) (chat_request p);
     ConsoleError [LogString (js "Unexpected chat payload:"); LogValue data]].
Proof.
  intros Hc%reachable_consistent Htext Huser Hcond. cbv zeta.
  rewrite (send_flow p ok data Htext Huser).
  rewrite (send_resume_fallback ok data _ (consistent_sent p Htext Huser Hc) Hcond).
  fields. rewrite messages_sent, !fmap_app, <- !app_assoc.
  split; [done|]. split; [done|]. rewrite effects_with_indicator.
  by unfold typed_in.
Qed.

Lemma send_fallback_witness :
  reachable (steps (initial []) [TypeUserId (js "bob"); ClickStart;
                                 TypeMessage (js "hi")]) /\
  typingEl
    (steps (steps (initial []) [TypeUserId (js "bob"); ClickStart;
                                TypeMessage (js "hi")])
       [ClickSend;
        FetchResolved
          (next_rid (steps (initial []) [TypeUserId (js "bob"); ClickStart;
                                         TypeMessage (js "hi")])) true;
        JsonResolved
          (next_rid (steps (initial []) [TypeUserId (js "bob"); ClickStart;
                                         TypeMessage (js "hi")]))
          (VObject [])]) = None.
Proof.
  split; [apply reachable_steps; constructor|].
  exact (proj1 (proj2
    (send_fallback
       (steps (initial []) [TypeUserId (js "bob"); ClickStart;
                            TypeMessage (js "hi")])
       true (VObject [])
       (reachable_steps _ _ (reachable_initial []))
       eq_refl eq_refl eq_refl))).
Defined.

(** X16. A [send] that receives an ok response whose [response] is
    truthy but not a string ends in its [catch] block: the log gains the
    user's message and then the network-error text, although the network
    did not fail, and the TypeError is written to the console. *)
Theorem send_response_not_string p data :
  reachable p ->
  JsString.is_empty (JsString.trim (msgInput p)) = false ->
  JsString.is_empty (currentUser p) = false ->
  truthy data = true ->
  truthy (get_prop data (js "response")) = true ->
  (forall s, get_prop data (js "response") <> VString s) ->
  let q := steps p [ClickSend; FetchResolved (next_rid p) true;
                    JsonResolved (next_rid p) data] in
  shown <$> chat q =
    (shown <$> messages (chat p))
    ++ [(js "msg user-msg", [renderText_str (JsString.trim (msgInput p))]);
        (js "msg assistant-msg",
         [renderText_str (js "Network error. Please try again.")])] /\
  typingEl q = None /\
  effects q =
    effects p ++
    [Fetch (next_rid p) (chat_request p); ConsoleError [LogError TypeError]].
Proof.
  intros Hc%reachable_consistent Htext Huser Hd Hm Hs. cbv zeta.
  rewrite (send_flow p true data Htext Huser).
  rewrite (send_resume_thrown data TypeError _ (consistent_sent p Htext Huser Hc) Hd Hm)
    by by apply renderText_not_string.
  fields. rewrite messages_sent, !fmap_app, <- !app_assoc.
  split; [done|]. split; [done|]. rewrite effects_with_indicator.
  by unfold typed_in.
Qed.

Lemma send_response_not_string_witness :
  reachable (steps (initial []) [TypeUserId (js "bob"); ClickStart;
                                 TypeMessage (js "hi")]) /\
  typingEl
    (steps (steps (initial []) [TypeUserId (js "bob"); ClickStart;
                                TypeMessage (js "hi")])
       [ClickSend;
        FetchResolved
          (next_rid (steps (initial []) [TypeUserId (js "bob"); ClickStart;
                                         TypeMessage (js "hi")])) true;
        JsonResolved
          (next_rid (steps (initial []) [TypeUserId (js "bob"); ClickStart;
                                         TypeMessage (js "hi")]))
          (VObject [(js "response", VArray [VString (js "a")])])]) = None.
Proof.
  split; [apply reachable_steps; constructor|].
  refine (proj1 (proj2
    (send_response_not_string
       (steps (initial []) [TypeUserId (js "bob"); ClickStart;
                            TypeMessage (js "hi")])
       (VObject [(js "response", VArray [VString (js "a")])])
       (reachable_steps _ _ (reachable_initial []))
       eq_refl eq_refl eq_refl eq_refl _))).
  intros s. discriminate.
Defined.

(** ** The indicator, shown and hidden *)

(** X10. Showing and then hiding the indicator restores the page: from
    a reachable page with an empty slot, [showTyping(); hideTyping()]
    returns normally and leaves the log, the slot and everything else as
    they were; only three element identities have been used up. *)
Theorem showTyping_hideTyping_restores p :
  reachable p -> typingEl p = None ->
  (showTyping ;; hideTyping) p
  = Done tt (set_next_uid (S (S (S (next_uid p)))) p).
Proof.
  intros Hc%reachable_consistent Hslot. unfold bind.
  pose proof (hoare_showTyping any_slot (fun _ => False) p
                (proj1 (consistent_slot p) Hc)) as Hq.
  rewrite (showTyping_hidden p Hslot) in *. destruct Hq as [Hq _].
  rewrite (hideTyping_consistent _ Hq). fields.
  rewrite messages_app.
  change (messages [typing_row (next_uid p)]) with (@nil node).
  rewrite app_nil_r, messages_id
    by (rewrite (c_indicators p Hc), Hslot; reflexivity).
  destruct p. simpl in *. by subst.
Qed.

Lemma showTyping_hideTyping_restores_witness :
  (reachable (steps (initial [])
                [TypeUserId (js "bob"); ClickStart; FetchRejected 0%nat]) /\
   typingEl (steps (initial [])
               [TypeUserId (js "bob"); ClickStart; FetchRejected 0%nat]) = None)
  /\ (showTyping ;; hideTyping)
       (steps (initial [])
          [TypeUserId (js "bob"); ClickStart; FetchRejected 0%nat])
     = Done tt
         (set_next_uid
            (S (S (S (next_uid
                        (steps (initial [])
                           [TypeUserId (js "bob"); ClickStart;
                            FetchRejected 0%nat])))))
            (steps (initial [])
               [TypeUserId (js "bob"); ClickStart; FetchRejected 0%nat])).
Proof.
  split; [split; [apply reachable_steps; constructor|reflexivity]|].
  apply (showTyping_hideTyping_restores
           (steps (initial [])
              [TypeUserId (js "bob"); ClickStart; FetchRejected 0%nat]));
    [apply reachable_steps; constructor|reflexivity].
Defined.

(** ** Before the first start *)

Lemma idle_step base u m ev :
  is_start ev = false ->
  exists u' m',
    step (set_userInput u (set_msgInput m (initial base))) ev
    = set_userInput u' (set_msgInput m' (initial base)).
Proof.
  intros Hev.
  assert (run send (set_userInput u (set_msgInput m (initial base)))
          = set_userInput u (set_msgInput m (initial base))) as Hsend.
  { unfold run. by rewrite send_invalid by by right. }
  destruct ev as [s|s| | |key|rid|rid ok|rid|rid data]; cbn [step];
    try (by exists u, m).
  - by exists s, m.
  - by exists u, s.
  - destruct (JsString.eqb key (js "Enter")); rewrite ?Hsend; by exists u, m.
Qed.

(** X17. Until a start is pressed the script does nothing: after any
    sequence of edits, send clicks, key presses and settlements the page
    is the initial one but for the two input fields. No request has been
    sent, the log is empty and there is no session. *)
Theorem idle_until_start base evs :
  forallb (fun ev => negb (is_start ev)) evs = true ->
  exists u m,
    steps (initial base) evs = set_userInput u (set_msgInput m (initial base)).
Proof.
  assert (forall u m,
            forallb (fun ev => negb (is_start ev)) evs = true ->
            exists u' m',
              steps (set_userInput u (set_msgInput m (initial base))) evs
              = set_userInput u' (set_msgInput m' (initial base))) as H.
  { induction evs as [|ev evs IH]; intros u m Hevs; [by exists u, m|].
    cbn [forallb] in Hevs. apply andb_true_iff in Hevs as [Hev Hevs].
    apply negb_true_iff in Hev.
    destruct (idle_step base u m ev Hev) as (u' & m' & Hstep).
    rewrite steps_cons, Hstep. by apply IH. }
  apply (H [] []).
Qed.

Lemma idle_until_start_witness :
  forallb (fun ev => negb (is_start ev))
    [TypeMessage (js "hi"); ClickSend; KeyDown (js "Enter");
     FetchRejected 0%nat] = true /\
  exists u m,
    steps (initial [])
      [TypeMessage (js "hi"); ClickSend; KeyDown (js "Enter");
       FetchRejected 0%nat]
    = set_userInput u (set_msgInput m (initial [])).
Proof.
  split; [reflexivity|].
  apply (idle_until_start []
           [TypeMessage (js "hi"); ClickSend; KeyDown (js "Enter");
            FetchRejected 0%nat]).
  reflexivity.
Defined.
